(** * Tuva schema parser and index setup: a shallow embedding

    The development follows the two JavaScript modules of the repository:

    - [tuva-parser.js]: [parseYamlFile], [extractDocumentation] and
      [parseTuvaSchema], which turn the YAML documents of the schema
      repository into a catalog of table schemas;
    - [setup-tuva.js]: [createSchemaText], [generateEmbedding],
      [initializeIndex], [uploadToPinecone] and [setupTuva], which embed
      every table of the catalog and write it to the vector index.

    JavaScript values are an inductive type, exceptions are an explicit
    [result], and everything that talks to the outside (file system, git,
    the embedding service, the vector store, the console, timers) goes
    through a small state-and-error monad over a [World]. *)

From Stdlib Require Import ZArith String Ascii List Lia DecimalString.
From stdpp Require Import base list strings gmap.
From Equations Require Import Equations.
Import ListNotations.

Local Open Scope string_scope.
Local Open Scope list_scope.

(** ** Exceptions *)

(** What a [throw] carries.  [TypeError] is what the engine raises on a
    property read of [null]/[undefined], on a call of something that is not
    a function, or on iterating something that is not iterable; [Failure]
    is an error raised by a collaborator (file system, YAML loader, git,
    network client), with its message. *)
Inductive error :=
| TypeError
| Failure (message : string).

Inductive result (A : Type) :=
| Ok (a : A)
| Throw (e : error).
Arguments Ok {A} a.
Arguments Throw {A} e.

Global Instance result_ret : MRet result := fun _ a => Ok a.

Global Instance result_bind : MBind result := fun _ _ k r =>
  match r with
  | Ok a => k a
  | Throw e => Throw e
  end.

(** [array.map(f)] where [f] may throw: elements are visited in order and
    the first exception ends the traversal. *)
Fixpoint rmap {A B} (f : A -> result B) (l : list A) : result (list B) :=
  match l with
  | [] => Ok []
  | x :: rest => y ← f x; ys ← rmap f rest; Ok (y :: ys)
  end.

(** ** JavaScript values, as the YAML loader produces them *)

(** Numbers.  [NInt] is an integer a double holds exactly, of magnitude
    at most 2^53: for these [String(n)] is the decimal rendering of the
    integer.  [NNaN] is NaN.  [NFloat] stands for every other number (a
    fraction, an infinity, a magnitude beyond 2^53, where the loaded
    double need not be the integer that was written) and carries the
    rendering [String(n)] gives it.  Negative zero is [NInt 0]: the
    program cannot tell them apart. *)
Inductive number :=
| NInt (z : Z)
| NNaN
| NFloat (repr : string).

#[local] Set Warnings "-register-all".

(** An object is the list of its own enumerable properties in the order
    [Object.keys] reports them; a property read takes the first entry
    with the key (the YAML loader rejects duplicated keys).  Scalars the
    loader turns into objects of their own (timestamps, binary data) are
    not represented. *)
Inductive value :=
| VUndefined
| VNull
| VBool (b : bool)
| VNum (n : number)
| VStr (s : string)
| VArr (items : list value)
| VObj (fields : list (string * value)).

Definition nat_to_string (n : nat) : string :=
  NilZero.string_of_uint (Nat.to_uint n).

Definition number_to_string (n : number) : string :=
  match n with
  | NInt z => NilZero.string_of_int (Z.to_int z)
  | NNaN => "NaN"
  | NFloat repr => repr
  end.

(** ToBoolean. *)
Definition truthy (v : value) : bool :=
  match v with
  | VUndefined | VNull => false
  | VBool b => b
  | VNum (NInt z) => negb (Z.eqb z 0)
  | VNum NNaN => false
  | VNum (NFloat _) => true
  | VStr s => negb (String.eqb s "")
  | VArr _ | VObj _ => true
  end.

(** [typeof v === 'object'] (true of [null] as well). *)
Definition typeof_object (v : value) : bool :=
  match v with
  | VNull | VArr _ | VObj _ => true
  | _ => false
  end.

(** [typeof v === 'string']. *)
Definition typeof_string (v : value) : bool :=
  match v with
  | VStr _ => true
  | _ => false
  end.

Definition nullish (v : value) : bool :=
  match v with
  | VUndefined | VNull => true
  | _ => false
  end.

(** [v === 2]. *)
Definition strict_eq_2 (v : value) : bool :=
  match v with
  | VNum (NInt z) => Z.eqb z 2
  | _ => false
  end.

Fixpoint lookup_field (fields : list (string * value)) (key : string) : value :=
  match fields with
  | [] => VUndefined
  | (k, v) :: rest => if String.eqb k key then v else lookup_field rest key
  end.

(** The position [i < n] whose decimal rendering is [key], if any: the
    array index a property key denotes. *)
Fixpoint index_of_key (key : string) (n : nat) : option nat :=
  match n with
  | O => None
  | S m =>
      match index_of_key key m with
      | Some i => Some i
      | None => if String.eqb (nat_to_string m) key then Some m else None
      end
  end.

Definition chars (s : string) : list value :=
  map (fun c => VStr (String c EmptyString)) (list_ascii_of_string s).

Definition indexed (items : list value) (key : string) : value :=
  if String.eqb key "length" then VNum (NInt (Z.of_nat (length items)))
  else match index_of_key key (length items) with
       | Some i => nth i items VUndefined
       | None => VUndefined
       end.

(** Property read [v.key] / [v[key]].  Reading a property of [null] or
    [undefined] throws.  Own properties only: inherited methods
    ([toString], [constructor], ...) are absent from the model, and the
    program reads none of them by name. *)
Definition get (v : value) (key : string) : result value :=
  match v with
  | VUndefined | VNull => Throw TypeError
  | VObj fields => Ok (lookup_field fields key)
  | VArr items => Ok (indexed items key)
  | VStr s => Ok (indexed (chars s) key)
  | VBool _ | VNum _ => Ok VUndefined
  end.

(** Optional chaining [v?.key]. *)
Definition opt_get (v : value) (key : string) : result value :=
  if nullish v then Ok VUndefined else get v key.

(** [a || b], with [b] evaluated only when [a] is falsy. *)
Definition js_or (a : value) (b : result value) : result value :=
  if truthy a then Ok a else b.

(** [Object.keys(v)] for the values the program applies it to. *)
Definition object_keys (v : value) : list string :=
  match v with
  | VObj fields => map fst fields
  | VArr items => map nat_to_string (seq 0 (length items))
  | VStr s => map nat_to_string (seq 0 (String.length s))
  | _ => []
  end.

(** The elements a [for ... of] loop visits.  Arrays and strings are
    iterable; plain objects, numbers and booleans are not. *)
Definition iterate (v : value) : result (list value) :=
  match v with
  | VArr items => Ok items
  | VStr s => Ok (chars s)
  | _ => Throw TypeError
  end.

(** [v.map(f)]: only arrays have a [map] method. *)
Definition array_map {B} (f : value -> result B) (v : value) : result (list B) :=
  match v with
  | VArr items => rmap f items
  | _ => Throw TypeError
  end.

(** Does the object define a key of its own? *)
Definition has_own (fields : list (string * value)) (key : string) : bool :=
  existsb (fun kv => String.eqb (fst kv) key) fields.

Definition join (sep : string) (parts : list string) : string :=
  match parts with
  | [] => ""
  | p :: rest => fold_left (fun acc q => acc +:+ sep +:+ q) rest p
  end.

(** ToString, as a template literal or a property key applies it.  An
    array joins its elements with commas ([null] and [undefined] render
    empty); a plain object renders as [[object Object]] unless a key of
    its own hides the inherited [toString], in which case the conversion
    throws (a loaded document holds no functions). *)
Fixpoint to_string (v : value) : result string :=
  match v with
  | VUndefined => Ok "undefined"
  | VNull => Ok "null"
  | VBool true => Ok "true"
  | VBool false => Ok "false"
  | VNum n => Ok (number_to_string n)
  | VStr s => Ok s
  | VArr items =>
      parts ← rmap (fun x => if nullish x then Ok "" else to_string x) items;
      Ok (join "," parts)
  | VObj fields =>
      if has_own fields "toString" then Throw TypeError
      else Ok "[object Object]"
  end.

(** * tuva-parser.js *)

(** ** The records the parser builds *)

(** A column object [{ name, type, description }] and a table object
    [{ table_name, description, columns }].  Their fields hold whatever
    the document held: the parser converts nothing.  [full_description]
    is the field the documentation merge adds; before the merge the
    property is absent, which reads as [undefined]. *)
Module Column.
Record t := mk { name : value; type : value; description : value }.
End Column.
Abbreviation Column := Column.t.

Record TableSchema := mkTable {
  table_name : value;
  description : value;
  columns : list Column;
  full_description : value
}.

(** ** parseYamlFile *)

(** The column mapper of a versioned model list:
    [{ name: col.name, type: col.data_type || col.dataType || 'TEXT',
       description: col.description || '' }]. *)
Definition shapeA_column (col : value) : result Column :=
  n ← get col "name";
  dt ← get col "data_type";
  ty ← js_or dt (dT ← get col "dataType"; js_or dT (Ok (VStr "TEXT")));
  d ← get col "description";
  de ← js_or d (Ok (VStr ""));
  Ok (Column.mk n ty de).

(** [model.description || model.docs?.meta?.description || '']. *)
Definition shapeA_description (model : value) : result value :=
  d ← get model "description";
  js_or d (docs ← get model "docs";
           meta ← opt_get docs "meta";
           dd ← opt_get meta "description";
           js_or dd (Ok (VStr ""))).

(** One turn of [for (const model of models)]: the record pushed, if
    [model.name && model.columns] holds. *)
Definition shapeA_model (model : value) : result (option TableSchema) :=
  n ← get model "name";
  if truthy n then
    c ← get model "columns";
    if truthy c then
      d ← shapeA_description model;
      cols ← array_map shapeA_column c;
      Ok (Some (mkTable n d cols VUndefined))
    else Ok None
  else Ok None.

(** [schemas.push(x)] when there is an [x]. *)
Definition push (schemas : list TableSchema) (x : option TableSchema) : list TableSchema :=
  match x with
  | Some t => schemas ++ [t]
  | None => schemas
  end.

Fixpoint shapeA_models (models : list value) (schemas : list TableSchema)
  : result (list TableSchema) :=
  match models with
  | [] => Ok schemas
  | model :: rest =>
      x ← shapeA_model model;
      shapeA_models rest (push schemas x)
  end.

(** The column mapper of a keyed map: a bare string is a name; an object
    gives [col.name], [col.type || col.data_type || 'TEXT'] and
    [col.description || '']. *)
Definition shapeB_column (col : value) : result Column :=
  n ← (if typeof_string col then Ok col else get col "name");
  ty ← (if typeof_string col then Ok (VStr "TEXT")
        else t ← get col "type";
             js_or t (dt ← get col "data_type"; js_or dt (Ok (VStr "TEXT"))));
  de ← (if typeof_string col then Ok (VStr "")
        else d ← get col "description"; js_or d (Ok (VStr "")));
  Ok (Column.mk n ty de).

(** One call of the [forEach] callback over [Object.keys(data)]. *)
Definition shapeB_entry (data : value) (key : string) : result (option TableSchema) :=
  v ← get data key;
  if typeof_object v then
    c ← get v "columns";
    if truthy c then
      d ← get v "description";
      de ← js_or d (Ok (VStr ""));
      cs ← js_or c (Ok (VArr []));
      cols ← array_map shapeB_column cs;
      Ok (Some (mkTable (VStr key) de cols VUndefined))
    else Ok None
  else Ok None.

Fixpoint shapeB_keys (data : value) (keys : list string) (schemas : list TableSchema)
  : result (list TableSchema) :=
  match keys with
  | [] => Ok schemas
  | key :: rest =>
      x ← shapeB_entry data key;
      shapeB_keys data rest (push schemas x)
  end.

(** The body of the [try] block of [parseYamlFile], from the loaded
    document on. *)
Definition parse_document (data : value) : result (list TableSchema) :=
  if truthy data && typeof_object data then
    version ← get data "version";
    if strict_eq_2 version then
      m ← get data "models";
      models ← js_or m (Ok (VArr []));
      items ← iterate models;
      shapeA_models items []
    else
      shapeB_keys data (object_keys data) []
  else Ok [].

(** * The outside world *)

(** The options [initializeIndex] passes to [createIndex]. *)
Record CreateIndexOptions := mkOptions {
  opt_name : string;
  opt_dimension : Z;
  opt_metric : string;
  opt_cloud : string;
  opt_region : string
}.

(** An index of the vector store.  [ready_in] is the time, in
    milliseconds, the service still needs before the index answers
    queries and accepts writes; [0] means it is ready. *)
Record IndexModel := mkIndex {
  idx_name : string;
  idx_dimension : Z;
  idx_metric : string;
  ready_in : Z
}.

(** The response of [listIndexes]: its [indexes] field may be missing. *)
Record IndexList := mkIndexList { indexes : option (list IndexModel) }.

(** The record [uploadToPinecone] writes for a table. *)
Record Metadata := mkMetadata {
  md_table_name : value;
  md_description : value;
  md_columns : string;
  md_schema : string
}.

Record EmbeddingRecord := mkRecord {
  id : value;
  values : value;
  metadata : Metadata
}.

(** What the program does to the outside, in the order it does it.  Of
    the console only the lines that carry a warning, an error or a count
    are kept; plain progress messages are left out. *)
Inductive Event :=
| GitPull
| GitClone
| ParseWarning (filePath : string) (e : error)
| DocWarning (file : string) (e : error)
| ModelsDirNotFound
| FoundDirectories (items : list string)
| ParserError (e : error)
| WriteOutput (file : string) (schemas : list TableSchema)
| EmbedRequest (text : string)
| EmbeddingError (e : error)
| ListIndexes
| CreateIndex (options : CreateIndexOptions)
| IndexError (e : error)
| Sleep (ms : Z)
| Upsert (index : string) (vectors : list EmbeddingRecord)
| Uploaded (uploaded total : nat)
| AllUploaded (uploaded : nat)
| SetupFailed (e : error)
| Exit (code : Z).

(** The collaborators, as the answers they give.  Each is a function of
    the request alone. *)
Record Env := mkEnv {
  exists_sync : string -> bool;
  readdir_sync : string -> result (list string);
  (** the [.yml]/[.yaml] files [findYamlFiles] collects under a directory,
      in the order of its walk *)
  yaml_files_under : string -> result (list string);
  (** [yaml.load(fs.readFileSync(path, 'utf8'))] *)
  read_yaml : string -> result value;
  git_pull : result unit;
  git_clone : result unit;
  write_file : string -> list TableSchema -> result unit;
  (** the decoded, parsed body of the embedding model's response *)
  bedrock_invoke : string -> result value;
  listIndexes_fault : option error;
  createIndex_fault : option error;
  (** how long the store takes to make a new index ready *)
  provisioning_ms : Z;
  upsert_fault : list EmbeddingRecord -> option error;
  JSON_stringify : value -> string
}.

Record World := mkWorld {
  trace : list Event;
  store : list IndexModel
}.

(** ** The monad of effects *)

Definition M (A : Type) : Type := World -> World * result A.

Global Instance M_ret : MRet M := fun _ a w => (w, Ok a).

Global Instance M_bind : MBind M := fun _ _ k m w =>
  match m w with
  | (w', Ok a) => k a w'
  | (w', Throw e) => (w', Throw e)
  end.

Definition throw {A} (e : error) : M A := fun w => (w, Throw e).

Definition lift {A} (r : result A) : M A := fun w => (w, r).

(** [try { m } catch (e) { handler(e) }]. *)
Definition try_catch {A} (m : M A) (handler : error -> M A) : M A := fun w =>
  match m w with
  | (w', Ok a) => (w', Ok a)
  | (w', Throw e) => handler e w'
  end.

Definition emit (ev : Event) : M unit := fun w =>
  (mkWorld (trace w ++ [ev]) (store w), Ok tt).

(** A collaborator call with no result: it succeeds or raises. *)
Definition fault (o : option error) : M unit :=
  match o with
  | Some e => throw e
  | None => mret tt
  end.

(** [for (const x of l) { body(x) }] over an accumulator. *)
Fixpoint for_each {A S} (body : S -> A -> M S) (l : list A) (acc : S) : M S :=
  match l with
  | [] => mret acc
  | x :: rest => acc' ← body acc x; for_each body rest acc'
  end.

Section Parser.
Variable env : Env.

(** Paths are taken relative to the directory of the module. *)
Definition REPO_DIR : string := "tuva-repo".
Definition OUTPUT_FILE : string := "tuva-schema.json".
Definition modelsDir : string := "tuva-repo/models".
Definition docsDir : string := "tuva-repo/dbt_doc_blocks".

Definition cloneTuvaRepo : M unit :=
  if exists_sync env REPO_DIR then
    _ ← emit GitPull; lift (git_pull env)
  else
    _ ← emit GitClone; lift (git_clone env).

(** Never raises: whatever the read, the load or the traversal of the
    document throws is caught, reported and answered with [[]]. *)
Definition parseYamlFile (filePath : string) : M (list TableSchema) :=
  try_catch
    (data ← lift (read_yaml env filePath);
     lift (parse_document data))
    (fun e => _ ← emit (ParseWarning filePath e); mret []).

(** [documentation] starts as an object literal and is written with
    [documentation[key] = value], where [key] is any key of a document.
    One key is special for such an object: [__proto__], which
    [Object.prototype] defines as an accessor.  Assigning an object to
    it stores no property: it replaces the prototype of [documentation],
    whose properties are read through [documentation] from then on;
    assigning [null] removes the prototype, and the accessor with it;
    any other value is ignored.  So the object is the properties of its
    own and its prototype. *)
Inductive Prototype :=
| ObjectPrototype
| NoPrototype
| Installed (p : value).

Record Documentation := mkDocumentation {
  own : gmap string value;
  prototype : Prototype
}.

(** [const documentation = {}]. *)
Definition empty_documentation : Documentation :=
  mkDocumentation ∅ ObjectPrototype.

(** Does an assignment to [__proto__] reach the accessor?  Not when
    [documentation] has a property of that name of its own, or inherits
    one from a document (whose keys are plain properties, [__proto__]
    included), or has no prototype left: the assignment is then an
    ordinary one. *)
Definition reaches_accessor (documentation : Documentation) : bool :=
  match own documentation !! "__proto__" with
  | Some _ => false
  | None =>
      match prototype documentation with
      | ObjectPrototype => true
      | NoPrototype => false
      | Installed (VObj fields) => negb (has_own fields "__proto__")
      | Installed _ => true
      end
  end.

(** [documentation[key] = v]. *)
Definition set_property (documentation : Documentation) (key : string)
    (v : value) : Documentation :=
  if String.eqb key "__proto__" && reaches_accessor documentation then
    match v with
    | VObj _ | VArr _ => mkDocumentation (own documentation) (Installed v)
    | VNull => mkDocumentation (own documentation) NoPrototype
    | _ => documentation
    end
  else mkDocumentation (<[key := v]> (own documentation)) (prototype documentation).

(** What is read through the prototype: the properties of the document
    installed there and, under [__proto__], that document itself (the
    accessor answers with the prototype).  What [Object.prototype] and
    [Array.prototype] contribute besides is left out: their members have
    no [description] and no [content], and the merge of step 5 takes an
    entry without them for an empty one. *)
Definition inherited (p : Prototype) : gmap string value :=
  match p with
  | Installed (VObj fields) =>
      list_to_map fields ∪ {["__proto__" := VObj fields]}
  | Installed (VArr items) =>
      list_to_map (map (fun key => (key, indexed items key))
                       ("length" :: object_keys (VArr items)))
      ∪ {["__proto__" := VArr items]}
  | _ => ∅
  end.

(** The dictionary [documentation[name]] reads: own properties first,
    inherited ones after. *)
Definition readable (documentation : Documentation) : gmap string value :=
  own documentation ∪ inherited (prototype documentation).

(** [documentation[key] = data[key]] for every key of the document. *)
Fixpoint assign_keys (data : value) (keys : list string)
    (documentation : Documentation) : result Documentation :=
  match keys with
  | [] => Ok documentation
  | key :: rest =>
      v ← get data key;
      assign_keys data rest (set_property documentation key v)
  end.

Definition read_doc_file (documentation : Documentation) (file : string)
  : M Documentation :=
  try_catch
    (data ← lift (read_yaml env file);
     if truthy data && typeof_object data
     then lift (assign_keys data (object_keys data) documentation)
     else mret documentation)
    (fun e => _ ← emit (DocWarning file e); mret documentation).

(** The object returned is read by the merge only: it is returned as
    the dictionary the merge reads. *)
Definition extractDocumentation : M (gmap string value) :=
  if exists_sync env docsDir then
    files ← lift (yaml_files_under env docsDir);
    documentation ← for_each read_doc_file files empty_documentation;
    mret (readable documentation)
  else mret ∅.

(** The callback of [allSchemas.map] in step 5.  [documentation] is a
    plain object used as a dictionary; a key it does not hold reads as
    [undefined] (or as an inherited method, which has no [description]
    and no [content] either), so the merge sees an empty entry. *)
Definition enrich (documentation : gmap string value) (schema : TableSchema)
  : result TableSchema :=
  key ← to_string (table_name schema);
  doc ← js_or (default VUndefined (documentation !! key)) (Ok (VObj []));
  d ← js_or (description schema)
        (dd ← get doc "description";
         js_or dd (dc ← get doc "content"; js_or dc (Ok (VStr ""))));
  dc ← get doc "content";
  fd ← js_or dc (Ok (description schema));
  Ok (mkTable (table_name schema) d (columns schema) fd).

(** Step 3: [for (const file of yamlFiles) allSchemas.push(...parseYamlFile(file))]. *)
Definition parse_files (yamlFiles : list string) : M (list TableSchema) :=
  for_each (fun allSchemas file =>
              schemas ← parseYamlFile file;
              mret (allSchemas ++ schemas))
           yamlFiles [].

(** The result is [None] where the function returns without a value
    ([undefined]), and the catalog otherwise. *)
Definition parseTuvaSchema : M (option (list TableSchema)) :=
  try_catch
    (_ ← cloneTuvaRepo;
     if negb (exists_sync env modelsDir) then
       _ ← emit ModelsDirNotFound;
       items ← lift (readdir_sync env REPO_DIR);
       _ ← emit (FoundDirectories items);
       mret None
     else
       yamlFiles ← lift (yaml_files_under env modelsDir);
       allSchemas ← parse_files yamlFiles;
       documentation ← extractDocumentation;
       enrichedSchemas ← lift (rmap (enrich documentation) allSchemas);
       _ ← emit (WriteOutput OUTPUT_FILE enrichedSchemas);
       _ ← lift (write_file env OUTPUT_FILE enrichedSchemas);
       mret (Some enrichedSchemas))
    (fun e => _ ← emit (ParserError e); throw e).
End Parser.

(** ** findYamlFiles *)

(** The entries of a directory, as [readdirSync(dir, { withFileTypes:
    true })] reports them: the plain files, the directories that can be
    listed, with their entries, the directories whose listing raises,
    and everything else (links, sockets, devices).  A listed directory
    exists, so that only the starting directory can be missing. *)
Inductive Dirent :=
| DFile (name : string)
| DDir (name : string) (items : list Dirent)
| DLocked (name : string) (e : error)
| DOther (name : string).

(** The starting directory: missing, there but not listable (a plain
    file, a directory closed to the reader), or listed. *)
Inductive DirState :=
| Missing
| Unlistable (e : error)
| Listed (items : list Dirent).

(** [s.endsWith(suffix)]. *)
Definition ends_with (suffix s : string) : bool :=
  (String.length suffix <=? String.length s)%nat &&
  String.eqb (substring (String.length s - String.length suffix)
                (String.length suffix) s) suffix.

(** [item.name.endsWith('.yml') || item.name.endsWith('.yaml')]. *)
Definition is_yaml (name : string) : bool :=
  ends_with ".yml" name || ends_with ".yaml" name.

(** The directories the walk does not enter:
    [item.name.startsWith('.')] or [item.name === 'node_modules']. *)
Definition skipped (name : string) : bool :=
  String.prefix "." name || String.eqb name "node_modules".

(** [path.join(currentPath, name)] for a normalized [currentPath] and the
    name of one of its entries. *)
Definition path_join (currentPath name : string) : string :=
  currentPath +:+ "/" +:+ name.

(** The body of the [for] loop of [walkDir] for one entry; [files] is
    the array the walk appends to. *)
Fixpoint walkItem (currentPath : string) (item : Dirent) (files : list string)
  : result (list string) :=
  match item with
  | DDir name items =>
      if skipped name then Ok files
      else
        (fix walk (items : list Dirent) (files : list string) : result (list string) :=
           match items with
           | [] => Ok files
           | item :: rest =>
               files' ← walkItem (path_join currentPath name) item files;
               walk rest files'
           end) items files
  | DLocked name e => if skipped name then Ok files else Throw e
  | DFile name =>
      if is_yaml name then Ok (files ++ [path_join currentPath name]) else Ok files
  | DOther _ => Ok files
  end.

(** [walkDir(currentPath)] on a directory with the entries [items]. *)
Fixpoint walkDir (currentPath : string) (items : list Dirent) (files : list string)
  : result (list string) :=
  match items with
  | [] => Ok files
  | item :: rest =>
      files' ← walkItem currentPath item files;
      walkDir currentPath rest files'
  end.

Definition findYamlFiles (dir : string) (state : DirState) : result (list string) :=
  match state with
  | Missing => Ok []
  | Unlistable e => Throw e
  | Listed items => walkDir dir items []
  end.

(** * setup-tuva.js *)

Definition PINECONE_INDEX_NAME : string := "tuva-schemas".
Definition EMBEDDING_DIMENSIONS : Z := 1536.
Definition batchSize : nat := 100.

(** The line feed of the template literals. *)
Definition nl : string := String (ascii_of_nat 10) EmptyString.

(** ** createSchemaText *)

(** [`  - ${col.name} (${col.type}): ${col.description || 'No description'}`] *)
Definition column_line (col : Column) : result string :=
  n ← to_string (Column.name col);
  t ← to_string (Column.type col);
  dv ← js_or (Column.description col) (Ok (VStr "No description"));
  d ← to_string dv;
  Ok ("  - " +:+ n +:+ " (" +:+ t +:+ "): " +:+ d).

Definition createSchemaText (schema : TableSchema) : result string :=
  lines ← rmap column_line (columns schema);
  let columnsText := join nl lines in
  tn ← to_string (table_name schema);
  dv ← js_or (description schema) (Ok (VStr ""));
  d ← to_string dv;
  Ok (tn +:+ nl +:+ d +:+ nl +:+ "Columns:" +:+ nl +:+ columnsText).

(** The objects [JSON.stringify] is given. *)
Definition column_value (col : Column) : value :=
  VObj [("name", Column.name col); ("type", Column.type col);
        ("description", Column.description col)].

Definition schema_value (schema : TableSchema) : value :=
  VObj [("table_name", table_name schema);
        ("description", description schema);
        ("columns", VArr (map column_value (columns schema)));
        ("full_description", full_description schema)].

(** The outcomes of the promises [Promise.all] waits for, in array
    order: the values if all fulfilled, a rejection otherwise.  Which of
    several rejections is reported depends on which settles first; the
    model reports the first in array order. *)
Fixpoint all_settled {A} (outcomes : list (result A)) : result (list A) :=
  match outcomes with
  | [] => Ok []
  | Ok a :: rest => rest' ← all_settled rest; Ok (a :: rest')
  | Throw e :: _ => Throw e
  end.

(** [items.map(async x => f(x))]: every call is started, in array
    order, whether or not an earlier one fails.  The events of one call
    are kept together; in a run the calls overlap, so that the requests
    of a batch all precede the first answer. *)
Fixpoint start_all {A B} (f : A -> M B) (items : list A) (w : World)
  : World * list (result B) :=
  match items with
  | [] => (w, [])
  | x :: rest =>
      let (w1, r) := f x w in
      let (w2, rs) := start_all f rest w1 in
      (w2, r :: rs)
  end.

Definition promise_all {A B} (f : A -> M B) (items : list A) : M (list B) :=
  fun w => let (w', outcomes) := start_all f items w in (w', all_settled outcomes).

Section Setup.
Variable env : Env.

(** ** generateEmbedding *)
Definition generateEmbedding (text : string) : M value :=
  try_catch
    (_ ← emit (EmbedRequest text);
     responseBody ← lift (bedrock_invoke env text);
     lift (get responseBody "embedding"))
    (fun e => _ ← emit (EmbeddingError e); throw e).

(** ** The vector store client *)

Definition read_store : M (list IndexModel) := fun w => (w, Ok (store w)).

Definition add_index (i : IndexModel) : M unit := fun w =>
  (mkWorld (trace w) (store w ++ [i]), Ok tt).

Definition listIndexes : M IndexList :=
  _ ← emit ListIndexes;
  _ ← fault (listIndexes_fault env);
  l ← read_store;
  mret (mkIndexList (Some l)).

Definition createIndex (options : CreateIndexOptions) : M unit :=
  _ ← emit (CreateIndex options);
  _ ← fault (createIndex_fault env);
  add_index (mkIndex (opt_name options) (opt_dimension options)
               (opt_metric options) (Z.max 0 (provisioning_ms env))).

(** [await new Promise(resolve => setTimeout(resolve, ms))]: time passes
    for the indexes in preparation too. *)
Definition elapse (ms : Z) (i : IndexModel) : IndexModel :=
  mkIndex (idx_name i) (idx_dimension i) (idx_metric i) (Z.max 0 (ready_in i - ms)).

Definition sleep (ms : Z) : M unit := fun w =>
  (mkWorld (trace w ++ [Sleep ms]) (map (elapse ms) (store w)), Ok tt).

Definition upsert (index : string) (vectors : list EmbeddingRecord) : M unit :=
  _ ← emit (Upsert index vectors);
  fault (upsert_fault env vectors).

(** ** initializeIndex *)

Definition index_options : CreateIndexOptions :=
  mkOptions PINECONE_INDEX_NAME EMBEDDING_DIMENSIONS "cosine" "aws" "us-east-1".

(** [indexList.indexes?.some(idx => idx.name === PINECONE_INDEX_NAME)],
    as the condition of the [if] reads it. *)
Definition indexExists (indexList : IndexList) : bool :=
  match indexes indexList with
  | None => false
  | Some l => existsb (fun idx => String.eqb (idx_name idx) PINECONE_INDEX_NAME) l
  end.

(** The handle [pinecone.index(name)] is the name of its index. *)
Definition initializeIndex : M string :=
  try_catch
    (indexList ← listIndexes;
     if indexExists indexList then
       mret PINECONE_INDEX_NAME
     else
       _ ← createIndex index_options;
       _ ← sleep 10000;
       mret PINECONE_INDEX_NAME)
    (fun e => _ ← emit (IndexError e); throw e).

(** ** uploadToPinecone *)

(** The body of the [async] callback of [batch.map]. *)
Definition make_vector (schema : TableSchema) : M EmbeddingRecord :=
  schemaText ← lift (createSchemaText schema);
  embedding ← generateEmbedding schemaText;
  dv ← lift (js_or (description schema) (Ok (VStr "")));
  mret (mkRecord (table_name schema) embedding
          (mkMetadata (table_name schema) dv
             (JSON_stringify env (VArr (map column_value (columns schema))))
             (JSON_stringify env (schema_value schema)))).

(** One turn of the [for] loop, at index [i]. *)
Definition upload_batch (index : string) (schemas : list TableSchema)
    (i uploaded : nat) : M nat :=
  let batch := take batchSize (drop i schemas) in
  vectors ← promise_all make_vector batch;
  _ ← upsert index vectors;
  let uploaded' := uploaded + length batch in
  _ ← emit (Uploaded uploaded' (length schemas));
  _ ← (if decide (i + batchSize < length schemas) then sleep 1000 else mret tt);
  mret uploaded'.

Equations upload_loop (index : string) (schemas : list TableSchema)
    (i uploaded : nat) (w : World) : World * result nat
    by wf (length schemas - i) lt :=
  upload_loop index schemas i uploaded w with decide (i < length schemas) := {
    | right _ => (w, Ok uploaded)
    | left _ with upload_batch index schemas i uploaded w := {
        | (w', Ok uploaded') => upload_loop index schemas (i + batchSize) uploaded' w'
        | (w', Throw e) => (w', Throw e) } }.
Next Obligation. unfold batchSize. lia. Defined.

(** The function has no [return]: its promise resolves to [undefined]. *)
Definition uploadToPinecone (index : string) (schemas : list TableSchema) : M value :=
  uploaded ← upload_loop index schemas 0 0;
  _ ← emit (AllUploaded uploaded);
  mret VUndefined.

(** ** setupTuva *)

(** [schemas.length], read off what [parseTuvaSchema] returned. *)
Definition schemas_length (schemas : option (list TableSchema)) : result nat :=
  match schemas with
  | Some l => Ok (length l)
  | None => Throw TypeError
  end.

(** [process.exit(1)] ends the process: nothing runs after [Exit]. *)
Definition setupTuva : M unit :=
  try_catch
    (schemas ← parseTuvaSchema env;
     _ ← lift (schemas_length schemas);
     index ← initializeIndex;
     _ ← uploadToPinecone index (default [] schemas);
     mret tt)
    (fun e => _ ← emit (SetupFailed e); emit (Exit 1)).
End Setup.

(** * What the properties are stated with *)

(** ** The catalog's records, typed as the data model gives them *)

(** A column and a table whose fields are strings, a missing description
    being [None]; [column_of] and [schema_of] are the objects the program
    holds for them. *)
Record TypedColumn := mkTypedColumn {
  tc_name : string;
  tc_type : string;
  tc_description : option string
}.

Record TypedTable := mkTypedTable {
  tt_name : string;
  tt_description : option string;
  tt_columns : list TypedColumn
}.

Definition optional (o : option string) : value :=
  match o with
  | Some s => VStr s
  | None => VUndefined
  end.

Definition column_of (c : TypedColumn) : Column :=
  Column.mk (VStr (tc_name c)) (VStr (tc_type c)) (optional (tc_description c)).

Definition schema_of (t : TypedTable) (full : value) : TableSchema :=
  mkTable (VStr (tt_name t)) (optional (tt_description t))
    (map column_of (tt_columns t)) full.

(** The text the encoder's contract describes. *)
Definition description_or (fallback : string) (o : option string) : string :=
  match o with
  | Some EmptyString | None => fallback
  | Some d => d
  end.

Definition column_line_spec (c : TypedColumn) : string :=
  "  - " +:+ tc_name c +:+ " (" +:+ tc_type c +:+ "): "
    +:+ description_or "No description" (tc_description c).

Definition schema_text_spec (t : TypedTable) : string :=
  tt_name t +:+ nl +:+ description_or "" (tt_description t) +:+ nl
    +:+ "Columns:" +:+ nl +:+ join nl (map column_line_spec (tt_columns t)).

(** ** Reading a document without the exception *)

(** The property [key] of [v], for a [v] that has properties. *)
Definition field (v : value) (key : string) : value :=
  match get v key with
  | Ok x => x
  | Throw _ => VUndefined
  end.

(** [a || b] on values. *)
Definition or_value (a b : value) : value := if truthy a then a else b.

(** The type a versioned model list declares for a column: [data_type],
    else [dataType], else ["TEXT"]. *)
Definition declared_typeA (col : value) : value :=
  or_value (field col "data_type") (or_value (field col "dataType") (VStr "TEXT")).

(** The type a keyed map declares for a column object: [type], else
    [data_type], else ["TEXT"]. *)
Definition declared_typeB (col : value) : value :=
  or_value (field col "type") (or_value (field col "data_type") (VStr "TEXT")).

(** A model entry with a name and a column list. *)
Definition named_with_columns (model : value) : bool :=
  truthy (field model "name") && truthy (field model "columns").

(** A model entry the loop can read: it is not [null], and if it has a
    name and columns, the columns are an array without [null] entries. *)
Definition readable_model (model : value) : bool :=
  negb (nullish model) &&
  (if named_with_columns model then
     match field model "columns" with
     | VArr cols => forallb (fun col => negb (nullish col)) cols
     | _ => false
     end
   else true).

Definition models_of (data : value) : list value :=
  match field data "models" with
  | VArr models => models
  | _ => []
  end.

(** A valid versioned model list: an object whose [version] is 2 and
    whose [models] is an array of readable entries. *)
Definition valid_shapeA (data : value) : bool :=
  match data with
  | VObj _ =>
      strict_eq_2 (field data "version") &&
      match field data "models" with
      | VArr models => forallb readable_model models
      | _ => false
      end
  | _ => false
  end.

(** A keyed map: an object (or array) document without the version
    marker. *)
Definition is_shapeB (data : value) : bool :=
  truthy data && typeof_object data && negb (strict_eq_2 (field data "version")).

(** The keys of a keyed map that hold a table: an object with columns. *)
Definition holds_table (data : value) (key : string) : bool :=
  typeof_object (field data key) && truthy (field (field data key) "columns").

Definition table_keys (data : value) : list string :=
  List.filter (holds_table data) (object_keys data).



(** What a model entry and its record have in common. *)
Definition columnA_ok (col : value) (c : Column) : Prop :=
  Column.name c = field col "name" ∧ Column.type c = declared_typeA col.

Definition modelA_ok (model : value) (schema : TableSchema) : Prop :=
  table_name schema = field model "name" ∧
  ∃ cols, field model "columns" = VArr cols ∧
          Forall2 columnA_ok cols (columns schema).

(** What a column entry of a keyed map and its record have in common. *)
Definition columnB_ok (col : value) (c : Column) : Prop :=
  (∀ s, col = VStr s → c = Column.mk (VStr s) (VStr "TEXT") (VStr "")) ∧
  (typeof_string col = false →
   Column.name c = field col "name" ∧ Column.type c = declared_typeB col).

Definition tableB_ok (data : value) (key : string) (schema : TableSchema) : Prop :=
  table_name schema = VStr key ∧
  ∃ cols, field (field data key) "columns" = VArr cols ∧
          Forall2 columnB_ok cols (columns schema).

(** ** Files and their records *)

(** What the [try] block of [parseYamlFile] comes to for a file, and the
    records the file contributes. *)
Definition file_outcome (env : Env) (file : string) : result (list TableSchema) :=
  data ← read_yaml env file; parse_document data.

Definition file_records (env : Env) (file : string) : list TableSchema :=
  match file_outcome env file with
  | Ok schemas => schemas
  | Throw _ => []
  end.

(** The warning [parseYamlFile] logs for a file, if it logs one. *)
Definition file_warning (env : Env) (file : string) : list Event :=
  match file_outcome env file with
  | Ok _ => []
  | Throw e => [ParseWarning file e]
  end.

(** The world after some more events. *)
Definition after (w : World) (events : list Event) : World :=
  mkWorld (trace w ++ events) (store w).

(** ** Reading a trace *)

(** The batches written to the vector store, in order. *)
Definition bulk_writes (tr : list Event) : list (list EmbeddingRecord) :=
  omap (fun ev => match ev with Upsert _ vectors => Some vectors | _ => None end) tr.

(** Every record written. *)
Definition upserted (tr : list Event) : list EmbeddingRecord :=
  concat (bulk_writes tr).

Definition write_or_pause (ev : Event) : bool :=
  match ev with
  | Upsert _ _ | Sleep _ => true
  | _ => false
  end.

Definition is_request (ev : Event) : bool :=
  match ev with
  | ListIndexes | CreateIndex _ | Upsert _ _ | EmbedRequest _ => true
  | _ => false
  end.

(** [xs] with [sep] between consecutive elements, and none at the end. *)
Fixpoint separated {A} (sep : A) (xs : list A) : list A :=
  match xs with
  | [] => []
  | x :: rest =>
      match rest with
      | [] => [x]
      | _ :: _ => x :: sep :: separated sep rest
      end
  end.

(** The store has the index and the index is ready. *)
Definition queryable (w : World) (name : string) : bool :=
  existsb (fun i => String.eqb (idx_name i) name && Z.eqb (ready_in i) 0) (store w).

Definition in_store (w : World) (name : string) : bool :=
  existsb (fun i => String.eqb (idx_name i) name) (store w).

(** What [cloneTuvaRepo] asks of git, and the answer. *)
Definition clone_event (env : Env) : Event :=
  if exists_sync env REPO_DIR then GitPull else GitClone.

Definition clone_outcome (env : Env) : result unit :=
  if exists_sync env REPO_DIR then git_pull env else git_clone env.

(** What the catalog keeps of a parsed record. *)
Definition kept (parsed entry : TableSchema) : Prop :=
  table_name entry = table_name parsed ∧ columns entry = columns parsed.

(** ** The index builder, request by request *)

(** What [generateEmbedding] comes to for a text. *)
Definition embedding_outcome (env : Env) (text : string) : result value :=
  responseBody ← bedrock_invoke env text; get responseBody "embedding".

(** The outcome of the callback of [batch.map] for a table, and the
    events it leaves. *)
Definition vector_outcome (env : Env) (schema : TableSchema) : result EmbeddingRecord :=
  schemaText ← createSchemaText schema;
  embedding ← embedding_outcome env schemaText;
  Ok (mkRecord (table_name schema) embedding
        (mkMetadata (table_name schema)
           (or_value (description schema) (VStr ""))
           (JSON_stringify env (VArr (map column_value (columns schema))))
           (JSON_stringify env (schema_value schema)))).

Definition vector_events (env : Env) (schema : TableSchema) : list Event :=
  match createSchemaText schema with
  | Throw _ => []
  | Ok text =>
      EmbedRequest text ::
      match embedding_outcome env text with
      | Ok _ => []
      | Throw e => [EmbeddingError e]
      end
  end.

(** [Partitioned batches tables]: the batches split [tables] into
    consecutive runs, in order, of [batchSize] tables each except the
    last, which has between one and [batchSize]; the records of a batch
    carry the names of its tables as ids, in order. *)
Inductive Partitioned : list (list EmbeddingRecord) → list TableSchema → Prop :=
| Partitioned_nil : Partitioned [] []
| Partitioned_last (b : list EmbeddingRecord) (ts : list TableSchema) :
    (0 < length ts)%nat → (length ts ≤ batchSize)%nat →
    map id b = map table_name ts →
    Partitioned [b] ts
| Partitioned_cons (b : list EmbeddingRecord) (bs : list (list EmbeddingRecord))
    (ts rest : list TableSchema) :
    length ts = batchSize → rest ≠ [] →
    map id b = map table_name ts →
    Partitioned bs rest →
    Partitioned (b :: bs) (ts ++ rest).

(** ** Sample inputs *)

Definition world0 : World := mkWorld [] [].

(** A store and services where nothing fails, with a repository whose
    files are given by [files] and [load]. *)
Definition sample_env (files : list string) (load : string -> result value)
    (embed : string -> result value) (provisioning : Z) : Env :=
  mkEnv (fun _ => true) (fun _ => Ok ["models"])
    (fun dir => if String.eqb dir modelsDir then Ok files else Ok [])
    load (Ok tt) (Ok tt) (fun _ _ => Ok tt)
    embed None None provisioning (fun _ => None) (fun _ => "").

Definition embedding_ok (text : string) : result value :=
  Ok (VObj [("embedding", VArr [VNum (NInt 0)])]).

Definition model_doc (name : string) (cols : list value) : value :=
  VObj [("version", VNum (NInt 2));
        ("models", VArr [VObj [("name", VStr name); ("columns", VArr cols)]])].

(** Two files that define the same table, with different columns. *)
Definition patient_v1 : value :=
  model_doc "patient" [VObj [("name", VStr "id"); ("data_type", VStr "INT")]].

Definition patient_v2 : value :=
  model_doc "patient" [VObj [("name", VStr "id"); ("dataType", VStr "VARCHAR")];
                       VObj [("name", VStr "state")]].

Definition env_dup : Env :=
  sample_env ["a.yml"; "b.yml"]
    (fun file => if String.eqb file "a.yml" then Ok patient_v1 else Ok patient_v2)
    embedding_ok 0.

(** A keyed map with a bare-string column and a column object. *)
Definition keyed_doc : value :=
  VObj [("encounter", VObj [("columns", VArr [VStr "id"; VObj [("name", VStr "kind")]])]);
        ("note", VStr "not a table")].

(** A document of neither shape: no version marker, and no key with
    columns. *)
Definition notes_doc : value :=
  VObj [("title", VStr "release notes");
        ("owner", VObj [("name", VStr "data team")]);
        ("tags", VArr [VStr "draft"])].

(** Three files, the second of which cannot be loaded; [notes.yml],
    which is not among them, holds a document of neither shape. *)
Definition env_bad_file : Env :=
  sample_env ["a.yml"; "bad.yml"; "c.yml"]
    (fun file => if String.eqb file "a.yml" then Ok patient_v1
                 else if String.eqb file "bad.yml" then Throw (Failure "bad indentation")
                 else if String.eqb file "notes.yml" then Ok notes_doc
                 else Ok keyed_doc)
    embedding_ok 0.

(** A repository without a [models] directory. *)
Definition env_no_models : Env :=
  mkEnv (fun path => negb (String.eqb path modelsDir)) (fun _ => Ok ["README.md"])
    (fun _ => Ok []) (fun _ => Throw (Failure "ENOENT")) (Ok tt) (Ok tt)
    (fun _ _ => Ok tt) embedding_ok None None 0 (fun _ => None) (fun _ => "").

(** A repository with one table, and a store that needs a minute to
    make an index ready. *)
Definition env_slow : Env :=
  sample_env ["a.yml"] (fun _ => Ok patient_v1) embedding_ok 60000.

Definition env_ready : Env := sample_env [] (fun _ => Throw (Failure "ENOENT")) embedding_ok 0.

(** A catalog of [n] tables named [0], [1], ... *)
Definition numbered (k : nat) : TableSchema :=
  mkTable (VStr (nat_to_string k)) (VStr "") [] VUndefined.

Definition sample_catalog (n : nat) : list TableSchema := map numbered (seq 0 n).

(** An embedding service that fails on the table named [150]. *)
Definition embedding_fails_on_150 (text : string) : result value :=
  if String.prefix "150" text then Throw (Failure "throttled") else embedding_ok text.

Definition env_throttled : Env :=
  sample_env [] (fun _ => Throw (Failure "ENOENT")) embedding_fails_on_150 0.

(** * Further notions *)

(** ** Documents *)

(** A value of a keyed map the [forEach] callback can read: it is not
    [null], and if it holds a table, its columns are an array without
    [null] entries. *)
Definition readable_entry (v : value) : bool :=
  match v with
  | VNull => false
  | _ =>
      if typeof_object v && truthy (field v "columns") then
        match field v "columns" with
        | VArr cols => forallb (fun col => negb (nullish col)) cols
        | _ => false
        end
      else true
  end.

(** A description that is there: a truthy value, or the empty string the
    parser puts for a missing one. *)
Definition is_empty_string (v : value) : bool :=
  match v with
  | VStr EmptyString => true
  | _ => false
  end.

Definition described (v : value) : bool := truthy v || is_empty_string v.

Definition column_complete (c : Column) : bool :=
  truthy (Column.type c) && described (Column.description c).

Definition record_complete (t : TableSchema) : bool :=
  described (description t) && forallb column_complete (columns t).

(** A versioned document with something else beside its models: a key
    that the keyed-map reading would take for a table. *)
Definition versioned_with_extra : list (string * value) :=
  [("version", VNum (NInt 2));
   ("seeds", VObj [("columns", VArr [VStr "id"])]);
   ("models", VArr [VObj [("name", VStr "patient");
                          ("columns", VArr [VObj [("name", VStr "id")]])]])].

(** A versioned document whose second entry is [null]. *)
Definition versioned_with_null : list (string * value) :=
  [("version", VNum (NInt 2));
   ("models", VArr [VObj [("name", VStr "patient");
                          ("columns", VArr [VObj [("name", VStr "id")]])];
                    VNull])].

(** A keyed map one of whose keys has no value. *)
Definition keyed_with_null : value :=
  VObj [("encounter", VObj [("columns", VArr [VStr "id"])]); ("patient", VNull)].

(** ** The documentation merge *)

(** The entry the merge reads for a table name: what [documentation]
    holds under the name if that is truthy, an empty object otherwise. *)
Definition doc_for (documentation : gmap string value) (name : string) : value :=
  or_value (default VUndefined (documentation !! name)) (VObj []).

(** The assignments a documentation file contributes, in order, and the
    warning it leaves if it cannot be loaded. *)
Definition doc_entries (env : Env) (file : string) : list (string * value) :=
  match read_yaml env file with
  | Ok data =>
      if truthy data && typeof_object data
      then map (fun key => (key, field data key)) (object_keys data)
      else []
  | Throw _ => []
  end.

Definition doc_warning (env : Env) (file : string) : list Event :=
  match read_yaml env file with
  | Ok _ => []
  | Throw e => [DocWarning file e]
  end.

(** [documentation[key] = value] for a list of assignments. *)
Definition assign (documentation : Documentation)
    (entries : list (string * value)) : Documentation :=
  fold_left (fun d kv => set_property d (fst kv) (snd kv)) entries documentation.

(** ** Kinds of events *)

(** What the parser leaves in the trace. *)
Definition parser_event (ev : Event) : bool :=
  match ev with
  | GitPull | GitClone | ParseWarning _ _ | DocWarning _ _ | ModelsDirNotFound
  | FoundDirectories _ | ParserError _ | WriteOutput _ _ => true
  | _ => false
  end.

(** What the batches of [uploadToPinecone] leave in the trace. *)
Definition batch_event (ev : Event) : bool :=
  match ev with
  | EmbedRequest _ | EmbeddingError _ | Upsert _ _ | Uploaded _ _ | Sleep _ => true
  | _ => false
  end.

(** What [initializeIndex] leaves in the trace when it returns: the
    request for the list of indexes and, if the index was not in the
    list, its creation and the pause of ten seconds. *)
Definition provisioned (events : list Event) : Prop :=
  events = [ListIndexes] ∨
  events = [ListIndexes; CreateIndex index_options; Sleep 10000].

(** What it leaves when it raises [e]: the call that failed, and the
    error, logged. *)
Definition provisioning_failed (e : error) (events : list Event) : Prop :=
  events = [ListIndexes; IndexError e] ∨
  events = [ListIndexes; CreateIndex index_options; IndexError e].

(** [m] only adds events of the kind [P] to the trace, and leaves the
    store as it is. *)
Definition logs (P : Event -> bool) {A} (m : M A) : Prop :=
  ∀ w, ∃ new, fst (m w) = after w new ∧ forallb P new = true.

(** Two documentation files that describe the same table, and one that
    cannot be loaded. *)
Definition env_docs : Env :=
  mkEnv (fun _ => true) (fun _ => Ok ["models"; "dbt_doc_blocks"])
    (fun dir => if String.eqb dir docsDir then Ok ["old.yml"; "broken.yml"; "new.yml"]
                else Ok ["a.yml"])
    (fun file =>
       if String.eqb file "old.yml"
       then Ok (VObj [("patient", VObj [("description", VStr "old text")])])
       else if String.eqb file "new.yml"
       then Ok (VObj [("patient", VObj [("description", VStr "new text")])])
       else if String.eqb file "a.yml" then Ok patient_v1
       else Throw (Failure "bad indentation"))
    (Ok tt) (Ok tt) (fun _ _ => Ok tt) embedding_ok None None 0
    (fun _ => None) (fun _ => "").

(** A documentation file that describes a table under the key
    [__proto__]. *)
Definition env_proto : Env :=
  mkEnv (fun _ => true) (fun _ => Ok ["models"; "dbt_doc_blocks"])
    (fun dir => if String.eqb dir docsDir then Ok ["proto.yml"] else Ok [])
    (fun _ => Ok (VObj [("__proto__",
                         VObj [("patient", VObj [("description", VStr "inherited text")])])]))
    (Ok tt) (Ok tt) (fun _ _ => Ok tt) embedding_ok None None 0
    (fun _ => None) (fun _ => "").

(** A table whose name is a string. *)
Definition string_named (t : TableSchema) : bool := typeof_string (table_name t).

(** ** Counting in a trace *)

Definition is_pause (ev : Event) : bool :=
  match ev with
  | Sleep _ => true
  | _ => false
  end.

(** The texts sent to the embedding service, in order. *)
Definition requested (tr : list Event) : list string :=
  omap (fun ev => match ev with EmbedRequest text => Some text | _ => None end) tr.

(** A store that already has the index, and one that rejects every
    creation. *)
Definition world_with_index : World :=
  mkWorld [] [mkIndex PINECONE_INDEX_NAME 1536 "cosine" 0].

Definition env_no_create : Env :=
  mkEnv (fun _ => true) (fun _ => Ok []) (fun _ => Ok []) (fun _ => Throw (Failure "ENOENT"))
    (Ok tt) (Ok tt) (fun _ _ => Ok tt) embedding_ok None (Some (Failure "quota exceeded")) 0
    (fun _ => None) (fun _ => "").

(** ** The record of a table *)

(** [r] is the record [uploadToPinecone] builds for [schema]: its id and
    metadata come from the table, its vector is the [embedding] property
    of what the service answered to the table's text. *)
Definition record_of (env : Env) (schema : TableSchema) (r : EmbeddingRecord) : Prop :=
  id r = table_name schema ∧
  md_table_name (metadata r) = table_name schema ∧
  md_description (metadata r) = or_value (description schema) (VStr "") ∧
  md_columns (metadata r) = JSON_stringify env (VArr (map column_value (columns schema))) ∧
  md_schema (metadata r) = JSON_stringify env (schema_value schema) ∧
  ∃ text body, createSchemaText schema = Ok text ∧
               bedrock_invoke env text = Ok body ∧
               values r = field body "embedding".

(** A store that rejects every write. *)
Definition env_no_write : Env :=
  mkEnv (fun _ => true) (fun _ => Ok []) (fun _ => Ok []) (fun _ => Throw (Failure "ENOENT"))
    (Ok tt) (Ok tt) (fun _ _ => Ok tt) embedding_ok None None 0
    (fun _ => Some (Failure "unavailable")) (fun _ => "").

(** ** The files of a directory tree *)

(** [found dir items path]: [path] is a YAML file of the tree [items]
    rooted at [dir] that can be reached without entering a skipped
    directory. *)
Inductive found : string → list Dirent → string → Prop :=
| found_here (dir : string) (items : list Dirent) (name : string) :
    In (DFile name) items → is_yaml name = true →
    found dir items (path_join dir name)
| found_below (dir : string) (items sub : list Dirent) (name path : string) :
    In (DDir name sub) items → skipped name = false →
    found (path_join dir name) sub path →
    found dir items path.

(** No directory that the walk enters refuses to be listed. *)
Fixpoint listable (item : Dirent) : bool :=
  match item with
  | DDir name items => skipped name || forallb listable items
  | DLocked name _ => skipped name
  | DFile _ | DOther _ => true
  end.

(** A models directory with a YAML file, a text file, a subdirectory
    and two directories that are skipped, one of them unreadable. *)
Definition sample_tree : list Dirent :=
  [DFile "core.yml"; DFile "README.md";
   DDir "claims" [DFile "medical.yaml"; DOther "link.yml"];
   DDir ".git" [DFile "config.yml"];
   DLocked "node_modules" (Failure "EACCES")].

(** ** A table given by bare column names *)

(** The keyed map [{ key: { columns: [names...] } }]. *)
Definition bare_table_doc (key : string) (names : list string) : value :=
  VObj [(key, VObj [("columns", VArr (map VStr names))])].

(** An embedding service that fails on the table named [2]. *)
Definition embedding_fails_on_2 (text : string) : result value :=
  if String.prefix "2" text then Throw (Failure "throttled") else embedding_ok text.

Definition env_fails_on_2 : Env :=
  sample_env [] (fun _ => Throw (Failure "ENOENT")) embedding_fails_on_2 0.

(** * Proofs *)

Local Open Scope nat_scope.

(** ** The exception monad *)

Lemma bind_Ok {A B} (a : A) (k : A -> result B) : (x ← Ok a; k x) = k a.
Proof. reflexivity. Qed.

Lemma bind_Ok_inv {A B} (r : result A) (k : A -> result B) (b : B) :
  (x ← r; k x) = Ok b → ∃ a, r = Ok a ∧ k a = Ok b.
Proof. destruct r as [a|e]; [eauto | discriminate]. Qed.

Ltac bind_inv H :=
  let a := fresh "a" in
  let Ha := fresh "Ha" in
  apply bind_Ok_inv in H; destruct H as (a & Ha & H).

Lemma rmap_Forall2 {A B} (f : A -> result B) (l : list A) (l' : list B) :
  rmap f l = Ok l' → Forall2 (fun x y => f x = Ok y) l l'.
Proof.
  revert l'. induction l as [|x l IH]; simpl; intros l' H.
  - injection H as <-. constructor.
  - bind_inv H. bind_inv H. injection H as <-. constructor; auto.
Qed.

(** ** Reading properties *)

Lemma get_field (v : value) (key : string) :
  nullish v = false → get v key = Ok (field v key).
Proof. unfold field. destruct v; simpl; intros; try discriminate; reflexivity. Qed.

Lemma get_Ok_field (v x : value) (key : string) :
  get v key = Ok x → x = field v key ∧ nullish v = false.
Proof.
  unfold field. intros H. rewrite H. split; [reflexivity|].
  destruct v; simpl in *; try discriminate; reflexivity.
Qed.

Lemma opt_get_total (v : value) (key : string) : ∃ x, opt_get v key = Ok x.
Proof. destruct v; simpl; eauto. Qed.

Lemma js_or_value (a b : value) : js_or a (Ok b) = Ok (or_value a b).
Proof. unfold js_or, or_value. destruct (truthy a); reflexivity. Qed.

Ltac rnorm := repeat (rewrite bind_Ok || rewrite js_or_value).
Ltac rnorm_in H := repeat (rewrite bind_Ok in H || rewrite js_or_value in H).

(** ** createSchemaText *)

Lemma column_line_typed (c : TypedColumn) :
  column_line (column_of c) = Ok (column_line_spec c).
Proof.
  destruct c as [n t [[|a d]|]]; reflexivity.
Qed.

Lemma column_lines_typed (cols : list TypedColumn) :
  rmap column_line (map column_of cols) = Ok (map column_line_spec cols).
Proof.
  induction cols as [|c cols IH]; simpl; [reflexivity|].
  rewrite column_line_typed, bind_Ok, IH. reflexivity.
Qed.

(** C2.  For every table of the data model (string fields, a description
    possibly missing), [createSchemaText] returns the table name, the
    description on the next line, the line [Columns:], and one line
    [  - name (type): description] per column in order, with
    [No description] for a missing or empty column description.  The text
    is a function of the name, the description and the columns alone, so
    encoding the same table again gives the same string. *)
Theorem createSchemaText_contract (t : TypedTable) (full full' : value) :
  createSchemaText (schema_of t full) = Ok (schema_text_spec t) ∧
  createSchemaText (schema_of t full') = createSchemaText (schema_of t full).
Proof.
  assert (Htext : ∀ f, createSchemaText (schema_of t f) = Ok (schema_text_spec t)).
  { intros f. unfold createSchemaText, schema_of, schema_text_spec. simpl.
    rewrite column_lines_typed, bind_Ok.
    destruct t as [n [[|a d]|] cols]; reflexivity. }
  split; [apply Htext | rewrite !Htext; reflexivity].
Qed.

(** ** parseYamlFile: the versioned model list *)

Lemma shapeA_column_readable (col : value) :
  nullish col = false →
  ∃ c, shapeA_column col = Ok c ∧ columnA_ok col c.
Proof.
  intros Hcol. unfold shapeA_column.
  rewrite !(get_field col) by assumption.
  rnorm. eexists. split; [reflexivity|]. split; reflexivity.
Qed.

Lemma shapeA_columns_readable (cols : list value) :
  forallb (fun col => negb (nullish col)) cols = true →
  ∃ cs, rmap shapeA_column cols = Ok cs ∧ Forall2 columnA_ok cols cs.
Proof.
  induction cols as [|col cols IH]; simpl; intros H.
  - eexists. split; [reflexivity | constructor].
  - apply andb_prop in H. destruct H as [Hcol Hrest].
    apply negb_true_iff in Hcol.
    destruct (shapeA_column_readable col Hcol) as (c & -> & Hc).
    destruct (IH Hrest) as (cs & -> & Hcs).
    eexists. split; [reflexivity | constructor; assumption].
Qed.

Lemma shapeA_description_total (model : value) :
  nullish model = false → ∃ d, shapeA_description model = Ok d.
Proof.
  intros Hm. unfold shapeA_description.
  rewrite !(get_field model) by assumption. rewrite !bind_Ok.
  unfold js_or. destruct (truthy (field model "description")); [eauto|].
  destruct (opt_get_total (field model "docs") "meta") as (meta & ->).
  rewrite bind_Ok.
  destruct (opt_get_total meta "description") as (dd & ->).
  rewrite bind_Ok. destruct (truthy dd); eauto.
Qed.

Lemma shapeA_model_readable (model : value) :
  readable_model model = true →
  if named_with_columns model
  then ∃ schema, shapeA_model model = Ok (Some schema) ∧ modelA_ok model schema
  else shapeA_model model = Ok None.
Proof.
  unfold readable_model, named_with_columns, shapeA_model.
  intros H. apply andb_prop in H. destruct H as [Hm Hcols].
  apply negb_true_iff in Hm.
  rewrite !(get_field model) by assumption. rewrite !bind_Ok.
  unfold named_with_columns in Hcols.
  destruct (truthy (field model "name")); simpl in *; [|reflexivity].
  destruct (truthy (field model "columns")); simpl in *; [|reflexivity].
  destruct (field model "columns") as [| | | | |cols|] eqn:Hc; try discriminate.
  destruct (shapeA_description_total model Hm) as (d & ->).
  destruct (shapeA_columns_readable cols Hcols) as (cs & Hcs & Hok).
  simpl. rewrite Hcs. rewrite !bind_Ok.
  eexists. split; [reflexivity|].
  split; [reflexivity|]. exists cols. split; [exact Hc | exact Hok].
Qed.

Lemma shapeA_models_readable (models : list value) (acc : list TableSchema) :
  forallb readable_model models = true →
  ∃ out, shapeA_models models acc = Ok (acc ++ out) ∧
         Forall2 modelA_ok (List.filter named_with_columns models) out.
Proof.
  revert acc. induction models as [|model models IH]; simpl; intros acc H.
  - exists []. rewrite app_nil_r. split; [reflexivity | constructor].
  - apply andb_prop in H. destruct H as [Hm Hrest].
    pose proof (shapeA_model_readable model Hm) as Hmodel.
    destruct (named_with_columns model).
    + destruct Hmodel as (schema & -> & Hok). rewrite bind_Ok. simpl.
      destruct (IH (acc ++ [schema]) Hrest) as (out & -> & Hout).
      exists (schema :: out). rewrite <- app_assoc. simpl.
      split; [reflexivity | constructor; assumption].
    + rewrite Hmodel, bind_Ok. simpl. apply IH, Hrest.
Qed.

(** C3.  For a valid versioned model list, the model entries that have a
    name and a column list and the records [parseYamlFile] builds from the
    document correspond one to one, in order: the record of an entry has
    the entry's name as [table_name] and one column per column entry, in
    the entry's order, whose type is the entry's [data_type], else its
    [dataType], else ["TEXT"]. *)
Theorem shapeA_one_table_per_model (data : value) :
  valid_shapeA data = true →
  ∃ schemas, parse_document data = Ok schemas ∧
             Forall2 modelA_ok (List.filter named_with_columns (models_of data)) schemas.
Proof.
  unfold valid_shapeA, models_of, parse_document.
  destruct data as [| | | | | |fields]; try discriminate.
  intros H. apply andb_prop in H. destruct H as [Hversion Hmodels].
  simpl truthy. simpl typeof_object. simpl andb.
  rewrite !(get_field (VObj fields)) by reflexivity. rewrite bind_Ok, Hversion.
  rewrite bind_Ok.
  destruct (field (VObj fields) "models") as [| | | | |models|]; try discriminate.
  simpl. destruct (shapeA_models_readable models [] Hmodels) as (out & Hout & Hok).
  exists out. split; assumption.
Qed.

(** ** parseYamlFile: the keyed map *)

Lemma shapeB_column_string (s : string) :
  shapeB_column (VStr s) = Ok (Column.mk (VStr s) (VStr "TEXT") (VStr "")).
Proof. reflexivity. Qed.

Lemma shapeB_column_Ok (col : value) (c : Column) :
  shapeB_column col = Ok c → columnB_ok col c.
Proof.
  intros H. split.
  - intros s ->. rewrite shapeB_column_string in H. congruence.
  - intros Hstr. unfold shapeB_column in H. rewrite Hstr in H.
    bind_inv H. apply get_Ok_field in Ha. destruct Ha as [-> Hcol].
    rewrite !(get_field col) in H by assumption. rnorm_in H.
    injection H as <-. split; reflexivity.
Qed.

Lemma shapeB_columns_Ok (cols : list value) (cs : list Column) :
  rmap shapeB_column cols = Ok cs → Forall2 columnB_ok cols cs.
Proof.
  intros H. apply rmap_Forall2 in H.
  induction H; constructor; auto using shapeB_column_Ok.
Qed.

Lemma shapeB_entry_Ok (data : value) (key : string) (x : option TableSchema) :
  shapeB_entry data key = Ok x →
  if holds_table data key
  then ∃ schema, x = Some schema ∧ tableB_ok data key schema
  else x = None.
Proof.
  unfold shapeB_entry, holds_table. intros H.
  bind_inv H. apply get_Ok_field in Ha. destruct Ha as [-> _].
  destruct (typeof_object (field data key)) eqn:Hobj; simpl;
    [|injection H as <-; reflexivity].
  bind_inv H. apply get_Ok_field in Ha. destruct Ha as [-> Hv].
  destruct (truthy (field (field data key) "columns")) eqn:Hcols;
    [|injection H as <-; reflexivity].
  rewrite !(get_field (field data key)) in H by assumption. rnorm_in H.
  bind_inv H. injection H as <-.
  unfold or_value in Ha. rewrite Hcols in Ha.
  destruct (field (field data key) "columns") as [| | | | |cols|] eqn:Hc;
    try discriminate.
  eexists. split; [reflexivity|]. split; [reflexivity|].
  exists cols. split; [exact Hc|]. apply shapeB_columns_Ok, Ha.
Qed.

Lemma shapeB_keys_Ok (data : value) (keys : list string) (acc out : list TableSchema) :
  shapeB_keys data keys acc = Ok out →
  ∃ new, out = acc ++ new ∧
         Forall2 (tableB_ok data) (List.filter (holds_table data) keys) new.
Proof.
  revert acc. induction keys as [|key keys IH]; simpl; intros acc H.
  - injection H as <-. exists []. rewrite app_nil_r. split; [reflexivity | constructor].
  - bind_inv H. apply shapeB_entry_Ok in Ha.
    apply IH in H. destruct H as (new & -> & Hnew).
    destruct (holds_table data key).
    + destruct Ha as (schema & -> & Hok). simpl.
      exists (schema :: new). rewrite <- app_assoc.
      split; [reflexivity | constructor; assumption].
    + subst a. simpl. exists new. split; [reflexivity | assumption].
Qed.

Lemma declared_typeA_missing (col : value) :
  truthy (field col "data_type") = false →
  truthy (field col "dataType") = false →
  declared_typeA col = VStr "TEXT".
Proof. unfold declared_typeA, or_value. intros -> ->. reflexivity. Qed.

Lemma declared_typeB_missing (col : value) :
  truthy (field col "type") = false →
  truthy (field col "data_type") = false →
  declared_typeB col = VStr "TEXT".
Proof. unfold declared_typeB, or_value. intros -> ->. reflexivity. Qed.

(** C4.  For a keyed map that [parseYamlFile] reads through, the keys
    holding a table and the records correspond one to one, in order; a
    column given as a bare string becomes the column of that name with
    type ["TEXT"] and an empty description.  A column object without a
    type gets ["TEXT"], in the keyed map (keys [type] and [data_type]) and
    in the versioned model list (keys [data_type] and [dataType]). *)
Theorem shapeB_bare_strings_and_default_type (data : value) (schemas : list TableSchema) :
  is_shapeB data = true →
  parse_document data = Ok schemas →
  Forall2 (tableB_ok data) (table_keys data) schemas ∧
  (∀ col c, shapeB_column col = Ok c → typeof_string col = false →
            truthy (field col "type") = false →
            truthy (field col "data_type") = false →
            Column.type c = VStr "TEXT") ∧
  (∀ col c, shapeA_column col = Ok c →
            truthy (field col "data_type") = false →
            truthy (field col "dataType") = false →
            Column.type c = VStr "TEXT").
Proof.
  unfold is_shapeB, parse_document, table_keys. intros Hshape H.
  apply andb_prop in Hshape. destruct Hshape as [Hobj Hversion].
  apply negb_true_iff in Hversion. rewrite Hobj in H.
  bind_inv H. apply get_Ok_field in Ha. destruct Ha as [-> _].
  rewrite Hversion in H. apply shapeB_keys_Ok in H.
  destruct H as (new & -> & Hnew). split; [exact Hnew|]. split.
  - intros col c Hc Hstr Ht Hdt. apply shapeB_column_Ok in Hc.
    destruct Hc as [_ Hc]. destruct (Hc Hstr) as [_ ->].
    apply declared_typeB_missing; assumption.
  - intros col c Hc Hdt HdT. unfold shapeA_column in Hc.
    bind_inv Hc. apply get_Ok_field in Ha. destruct Ha as [-> Hcol].
    rewrite !(get_field col) in Hc by assumption. rnorm_in Hc.
    injection Hc as <-. simpl. apply declared_typeA_missing; assumption.
Qed.

(** ** The monad of effects *)

Lemma run_bind {A B} (m : M A) (k : A -> M B) (w : World) :
  (x ← m; k x) w =
  match m w with
  | (w', Ok a) => k a w'
  | (w', Throw e) => (w', Throw e)
  end.
Proof. reflexivity. Qed.

Lemma run_bind_Ok_inv {A B} (m : M A) (k : A -> M B) (w w' : World) (b : B) :
  (x ← m; k x) w = (w', Ok b) →
  ∃ a w1, m w = (w1, Ok a) ∧ k a w1 = (w', Ok b).
Proof.
  rewrite run_bind. destruct (m w) as [w1 [a|e]]; [eauto | discriminate].
Qed.

Lemma try_catch_rethrow_Ok_inv {A} (m : M A) (h : error -> M A) (w w' : World) (a : A) :
  (∀ e w1 w2 x, h e w1 ≠ (w2, Ok x)) →
  try_catch m h w = (w', Ok a) → m w = (w', Ok a).
Proof.
  unfold try_catch. intros Hh. destruct (m w) as [w1 [x|e]]; [auto|].
  intros H. exfalso. exact (Hh _ _ _ _ H).
Qed.

Lemma after_nil (w : World) : after w [] = w.
Proof. destruct w. unfold after. simpl. rewrite app_nil_r. reflexivity. Qed.

Lemma after_after (w : World) (l1 l2 : list Event) :
  after (after w l1) l2 = after w (l1 ++ l2).
Proof. unfold after. simpl. rewrite app_assoc. reflexivity. Qed.

Lemma emit_run (ev : Event) (w : World) : emit ev w = (after w [ev], Ok tt).
Proof. reflexivity. Qed.

(** ** parseYamlFile and the loop over the files *)

Lemma parseYamlFile_run (env : Env) (file : string) (w : World) :
  parseYamlFile env file w =
  (after w (file_warning env file), Ok (file_records env file)).
Proof.
  unfold parseYamlFile, try_catch, file_warning, file_records, file_outcome.
  rewrite run_bind. unfold lift.
  destruct (read_yaml env file) as [data|e]; simpl.
  - destruct (parse_document data); simpl; [rewrite after_nil|]; reflexivity.
  - reflexivity.
Qed.

Lemma parse_files_run_from (env : Env) (files : list string)
    (acc : list TableSchema) (w : World) :
  for_each (fun allSchemas file =>
              schemas ← parseYamlFile env file; mret (allSchemas ++ schemas))
           files acc w =
  (after w (flat_map (file_warning env) files),
   Ok (acc ++ flat_map (file_records env) files)).
Proof.
  revert acc w. induction files as [|file files IH]; intros acc w; simpl.
  - rewrite after_nil, app_nil_r. reflexivity.
  - rewrite run_bind, run_bind, parseYamlFile_run. simpl.
    rewrite IH, after_after, <- app_assoc. reflexivity.
Qed.

Lemma parse_files_run (env : Env) (files : list string) (w : World) :
  parse_files env files w =
  (after w (flat_map (file_warning env) files),
   Ok (flat_map (file_records env) files)).
Proof. unfold parse_files. rewrite parse_files_run_from. reflexivity. Qed.

Lemma truthy_not_nullish (v : value) : truthy v = true → nullish v = false.
Proof. destruct v; simpl; intros; try discriminate; reflexivity. Qed.





(** ** parseTuvaSchema *)

Lemma lift_run {A} (r : result A) (w : World) : lift r w = (w, r).
Proof. reflexivity. Qed.

Lemma cloneTuvaRepo_run (env : Env) (w : World) :
  cloneTuvaRepo env w = (after w [clone_event env], clone_outcome env).
Proof.
  unfold cloneTuvaRepo, clone_event, clone_outcome.
  destruct (exists_sync env REPO_DIR); rewrite run_bind, emit_run, lift_run;
    reflexivity.
Qed.

Lemma enrich_keeps (documentation : gmap string value) (schema entry : TableSchema) :
  enrich documentation schema = Ok entry → kept schema entry.
Proof.
  unfold enrich. intros H. do 5 bind_inv H. injection H as <-.
  split; reflexivity.
Qed.

Lemma parser_handler_throws (e : error) (w1 w2 : World) (x : option (list TableSchema)) :
  (_ ← emit (ParserError e); throw e) w1 ≠ (w2, Ok x).
Proof. rewrite run_bind, emit_run. unfold throw. congruence. Qed.

(** C1 (as the code has it).  The catalog [parseTuvaSchema] returns
    holds one entry for every record of every source file, in the order
    the files are processed and the records were built, each with the
    record's table name and columns: entries are neither merged nor
    dropped by name. *)
Theorem catalog_keeps_every_record (env : Env) (w w' : World)
    (catalog : list TableSchema) :
  parseTuvaSchema env w = (w', Ok (Some catalog)) →
  ∃ files, yaml_files_under env modelsDir = Ok files ∧
           Forall2 kept (flat_map (file_records env) files) catalog.
Proof.
  unfold parseTuvaSchema. intros H.
  apply try_catch_rethrow_Ok_inv in H; [|intros; apply parser_handler_throws].
  apply run_bind_Ok_inv in H. destruct H as (_ & w1 & _ & H).
  destruct (negb (exists_sync env modelsDir)).
  - apply run_bind_Ok_inv in H. destruct H as (_ & w2 & _ & H).
    apply run_bind_Ok_inv in H. destruct H as (items & w3 & _ & H).
    apply run_bind_Ok_inv in H. destruct H as (_ & w4 & _ & H).
    discriminate.
  - apply run_bind_Ok_inv in H. destruct H as (files & w2 & Hfiles & H).
    rewrite lift_run in Hfiles. injection Hfiles as _ Hfiles.
    apply run_bind_Ok_inv in H. destruct H as (allSchemas & w3 & Hall & H).
    rewrite parse_files_run in Hall. injection Hall as _ <-.
    apply run_bind_Ok_inv in H. destruct H as (documentation & w4 & _ & H).
    apply run_bind_Ok_inv in H. destruct H as (enriched & w5 & Henrich & H).
    rewrite lift_run in Henrich. injection Henrich as _ Henrich.
    apply run_bind_Ok_inv in H. destruct H as (_ & w6 & _ & H).
    apply run_bind_Ok_inv in H. destruct H as (_ & w7 & _ & H).
    injection H as _ <-.
    exists files. split; [exact Hfiles|].
    apply rmap_Forall2 in Henrich.
    induction Henrich; constructor; eauto using enrich_keeps.
Qed.

(** C1 fails as stated: two files that define the table [patient] give a
    catalog with two entries of that name. *)
Lemma duplicate_table_names_are_kept :
  ∃ w' first second,
    parseTuvaSchema env_dup world0 = (w', Ok (Some [first; second])) ∧
    table_name first = VStr "patient" ∧
    table_name second = VStr "patient" ∧
    ¬ NoDup (map table_name [first; second]).
Proof.
  do 3 eexists. split; [vm_compute; reflexivity|].
  split; [reflexivity|]. split; [reflexivity|].
  simpl. intros Hnodup. apply NoDup_cons in Hnodup.
  destruct Hnodup as [Hnotin _]. apply Hnotin. constructor.
Qed.

Lemma catalog_keeps_every_record_witness :
  ∃ w' catalog,
    parseTuvaSchema env_dup world0 = (w', Ok (Some catalog)) ∧
    ∃ files, yaml_files_under env_dup modelsDir = Ok files ∧
             Forall2 kept (flat_map (file_records env_dup) files) catalog.
Proof.
  do 2 eexists. split; [vm_compute; reflexivity|].
  eapply (catalog_keeps_every_record env_dup world0). vm_compute. reflexivity.
Defined.

(** ** The missing models directory *)

(** C10.  Without a [models] directory, and with the repository fetched
    and listed, [parseTuvaSchema] returns no value ([undefined]: not an
    empty catalog, not an exception), and [setupTuva], which reads the
    length of what it got, fails on that read: it reports the error and
    exits with status 1 without having called the vector store or the
    embedding service. *)
Theorem missing_models_dir_returns_undefined (env : Env) (w : World)
    (items : list string) :
  exists_sync env modelsDir = false →
  clone_outcome env = Ok tt →
  readdir_sync env REPO_DIR = Ok items →
  let w1 := after w [clone_event env; ModelsDirNotFound; FoundDirectories items] in
  parseTuvaSchema env w = (w1, Ok None) ∧
  schemas_length None = Throw TypeError ∧
  setupTuva env w = (after w1 [SetupFailed TypeError; Exit 1], Ok tt) ∧
  List.filter is_request (trace (fst (setupTuva env w))) = List.filter is_request (trace w).
Proof.
  intros Hmodels Hclone Hreaddir w1.
  assert (Hparse : parseTuvaSchema env w = (w1, Ok None)).
  { unfold parseTuvaSchema, try_catch. rewrite run_bind, cloneTuvaRepo_run, Hclone.
    rewrite Hmodels. cbn [negb].
    rewrite run_bind, emit_run, run_bind, lift_run, Hreaddir, run_bind, emit_run.
    unfold w1. rewrite !after_after. reflexivity. }
  assert (Hsetup : setupTuva env w = (after w1 [SetupFailed TypeError; Exit 1], Ok tt)).
  { unfold setupTuva, try_catch. rewrite run_bind, Hparse, run_bind, lift_run.
    cbn [schemas_length].
    rewrite run_bind, emit_run, emit_run, after_after. reflexivity. }
  split; [exact Hparse|]. split; [reflexivity|]. split; [exact Hsetup|].
  rewrite Hsetup. unfold w1, after, clone_event. simpl.
  rewrite !List.filter_app.
  destruct (exists_sync env REPO_DIR); simpl; rewrite !app_nil_r; reflexivity.
Qed.

Lemma missing_models_dir_returns_undefined_witness :
  let w1 := after world0 [clone_event env_no_models; ModelsDirNotFound;
                          FoundDirectories ["README.md"]] in
  parseTuvaSchema env_no_models world0 = (w1, Ok None) ∧
  schemas_length None = Throw TypeError ∧
  setupTuva env_no_models world0 = (after w1 [SetupFailed TypeError; Exit 1], Ok tt) ∧
  List.filter is_request (trace (fst (setupTuva env_no_models world0))) =
    List.filter is_request (trace world0).
Proof.
  apply (missing_models_dir_returns_undefined env_no_models world0 ["README.md"]);
    reflexivity.
Defined.

(** ** generateEmbedding and one batch *)

Lemma generateEmbedding_run (env : Env) (text : string) (w : World) :
  generateEmbedding env text w =
  match embedding_outcome env text with
  | Ok v => (after w [EmbedRequest text], Ok v)
  | Throw e => (after w [EmbedRequest text; EmbeddingError e], Throw e)
  end.
Proof.
  unfold generateEmbedding, try_catch, embedding_outcome.
  rewrite run_bind, emit_run, run_bind, lift_run.
  destruct (bedrock_invoke env text) as [body|e]; simpl.
  - destruct (get body "embedding"); simpl; [reflexivity|].
    rewrite run_bind, emit_run, after_after. reflexivity.
  - rewrite run_bind, emit_run, after_after. reflexivity.
Qed.

Lemma make_vector_run (env : Env) (schema : TableSchema) (w : World) :
  make_vector env schema w =
  (after w (vector_events env schema), vector_outcome env schema).
Proof.
  unfold make_vector, vector_events, vector_outcome.
  rewrite run_bind, lift_run.
  destruct (createSchemaText schema) as [text|e]; simpl;
    [|rewrite after_nil; reflexivity].
  rewrite run_bind, generateEmbedding_run.
  destruct (embedding_outcome env text) as [v|e]; simpl; [|reflexivity].
  rewrite run_bind, lift_run, js_or_value. reflexivity.
Qed.

Lemma start_all_run (env : Env) (batch : list TableSchema) (w : World) :
  start_all (make_vector env) batch w =
  (after w (flat_map (vector_events env) batch), map (vector_outcome env) batch).
Proof.
  revert w. induction batch as [|schema batch IH]; intros w; simpl.
  - rewrite after_nil. reflexivity.
  - rewrite make_vector_run, IH, after_after. reflexivity.
Qed.

Lemma vector_events_quiet (env : Env) (batch : list TableSchema) :
  List.filter write_or_pause (flat_map (vector_events env) batch) = [] ∧
  bulk_writes (flat_map (vector_events env) batch) = [].
Proof.
  induction batch as [|schema batch [IH1 IH2]]; simpl; [split; reflexivity|].
  unfold bulk_writes in *. rewrite List.filter_app, omap_app, IH1, IH2.
  unfold vector_events.
  destruct (createSchemaText schema) as [text|e]; simpl; [|split; reflexivity].
  destruct (embedding_outcome env text); split; reflexivity.
Qed.

Lemma vector_outcome_id (env : Env) (schema : TableSchema) (r : EmbeddingRecord) :
  vector_outcome env schema = Ok r → id r = table_name schema.
Proof.
  unfold vector_outcome. intros H. do 2 bind_inv H. injection H as <-. reflexivity.
Qed.

Lemma all_settled_ids (env : Env) (batch : list TableSchema)
    (vectors : list EmbeddingRecord) :
  all_settled (map (vector_outcome env) batch) = Ok vectors →
  map id vectors = map table_name batch.
Proof.
  revert vectors. induction batch as [|schema batch IH]; simpl; intros vectors H.
  - injection H as <-. reflexivity.
  - destruct (vector_outcome env schema) as [r|e] eqn:Hr; [|discriminate].
    bind_inv H. injection H as <-. simpl.
    rewrite (vector_outcome_id _ _ _ Hr), (IH _ Ha). reflexivity.
Qed.

Lemma all_settled_rejects {A} (outcomes : list (result A)) (k : nat) (e : error) :
  outcomes !! k = Some (Throw e) → ∃ e', all_settled outcomes = Throw e'.
Proof.
  revert k. induction outcomes as [|[a|e0] outcomes IH]; intros k H.
  - discriminate.
  - destruct k as [|k]; [discriminate|]. simpl in *.
    destruct (IH k H) as (e' & ->). eauto.
  - simpl. eauto.
Qed.

(** One turn of the loop, spelled out. *)
Lemma upload_batch_run (env : Env) (index : string) (schemas : list TableSchema)
    (i uploaded : nat) (w : World) :
  let batch := take batchSize (drop i schemas) in
  let w1 := after w (flat_map (vector_events env) batch) in
  upload_batch env index schemas i uploaded w =
  match all_settled (map (vector_outcome env) batch) with
  | Throw e => (w1, Throw e)
  | Ok vectors =>
      match upsert_fault env vectors with
      | Some e => (after w1 [Upsert index vectors], Throw e)
      | None =>
          let w2 := after w1 [Upsert index vectors;
                              Uploaded (uploaded + length batch) (length schemas)] in
          (if decide (i + batchSize < length schemas)
           then fst (sleep 1000 w2) else w2,
           Ok (uploaded + length batch))
      end
  end.
Proof.
  intros batch w1. unfold upload_batch. fold batch.
  rewrite run_bind. unfold promise_all. rewrite start_all_run. fold w1.
  destruct (all_settled (map (vector_outcome env) batch)) as [vectors|e];
    [|reflexivity].
  rewrite run_bind. unfold upsert. rewrite run_bind, emit_run.
  destruct (upsert_fault env vectors) as [e|]; simpl; [reflexivity|].
  rewrite run_bind, emit_run, after_after. simpl.
  destruct (decide (i + batchSize < length schemas)); reflexivity.
Qed.

Lemma upload_loop_step (env : Env) (index : string) (schemas : list TableSchema)
    (i uploaded : nat) (w : World) :
  upload_loop env index schemas i uploaded w =
  if decide (i < length schemas) then
    match upload_batch env index schemas i uploaded w with
    | (w', Ok uploaded') => upload_loop env index schemas (i + batchSize) uploaded' w'
    | (w', Throw e) => (w', Throw e)
    end
  else (w, Ok uploaded).
Proof.
  rewrite upload_loop_equation_1.
  destruct (decide (i < length schemas)); simpl; [|reflexivity].
  destruct (upload_batch env index schemas i uploaded w) as [w' [u|e]]; reflexivity.
Qed.

(** ** Reading the trace of a run *)

Lemma bulk_writes_app (l1 l2 : list Event) :
  bulk_writes (l1 ++ l2) = bulk_writes l1 ++ bulk_writes l2.
Proof. unfold bulk_writes. apply omap_app. Qed.

Lemma upserted_app (l1 l2 : list Event) :
  upserted (l1 ++ l2) = upserted l1 ++ upserted l2.
Proof. unfold upserted. rewrite bulk_writes_app. apply concat_app. Qed.

Lemma upserted_write (index : string) (vectors : list EmbeddingRecord) :
  upserted [Upsert index vectors] = vectors.
Proof. unfold upserted. simpl. apply app_nil_r. Qed.

Lemma upserted_write_logged (index : string) (vectors : list EmbeddingRecord)
    (uploaded total : nat) :
  upserted [Upsert index vectors; Uploaded uploaded total] = vectors.
Proof. unfold upserted. simpl. apply app_nil_r. Qed.

Lemma lookup_map {A B} (f : A -> B) (l : list A) (k : nat) :
  map f l !! k = f <$> l !! k.
Proof.
  revert k. induction l as [|x l IH]; intros [|k]; simpl; auto.
Qed.

Lemma sleep_trace (ms : Z) (w : World) :
  trace (fst (sleep ms w)) = trace w ++ [Sleep ms].
Proof. reflexivity. Qed.

Lemma Partitioned_ids (batches : list (list EmbeddingRecord))
    (tables : list TableSchema) :
  Partitioned batches tables → map id (concat batches) = map table_name tables.
Proof.
  induction 1 as [|b ts _ _ Hb|b bs ts rest _ _ Hb _ IH]; simpl.
  - reflexivity.
  - rewrite app_nil_r. exact Hb.
  - rewrite !map_app, Hb, IH. reflexivity.
Qed.

(** ** The loop, when it completes *)

Lemma upload_loop_Ok (env : Env) (index : string) (schemas : list TableSchema) (n : nat) :
  ∀ (i uploaded : nat) (w w' : World) (total : nat),
    length schemas - i ≤ n →
    upload_loop env index schemas i uploaded w = (w', Ok total) →
    total = uploaded + length (drop i schemas) ∧
    ∃ new batches,
      trace w' = trace w ++ new ∧
      bulk_writes new = batches ∧
      List.filter write_or_pause new = separated (Sleep 1000) (map (Upsert index) batches) ∧
      Partitioned batches (drop i schemas).
Proof.
  induction n as [|n IH]; intros i uploaded w w' total Hn Hrun;
    rewrite upload_loop_step in Hrun;
    destruct (decide (i < length schemas)) as [Hi|Hi]; try lia.
  1, 3: (injection Hrun as <- <-; rewrite drop_ge by lia; simpl;
         split; [lia|]; exists [], []; rewrite app_nil_r;
         repeat split; constructor).
  pose proof (upload_batch_run env index schemas i uploaded w) as Hbatch.
  cbv zeta in Hbatch. rewrite Hbatch in Hrun. clear Hbatch.
  set (batch := take batchSize (drop i schemas)) in *.
  destruct (vector_events_quiet env batch) as [Hquiet Hnowrite].
  set (quiet := flat_map (vector_events env) batch) in *.
  destruct (all_settled (map (vector_outcome env) batch)) as [vectors|e] eqn:Hall;
    [|discriminate].
  apply all_settled_ids in Hall.
  destruct (upsert_fault env vectors); [discriminate|].
  assert (Hsplit : drop i schemas = batch ++ drop (i + batchSize) schemas).
  { unfold batch. rewrite <- (drop_drop schemas batchSize i). symmetry. apply take_drop. }
  assert (Hlen : length batch = min batchSize (length schemas - i)).
  { unfold batch. rewrite length_take, length_drop. reflexivity. }
  destruct (decide (i + batchSize < length schemas)) as [Hmore|Hlast].
  - apply IH in Hrun; [|unfold batchSize in *; lia].
    destruct Hrun as [Htotal (new & batches & Htrace & Hwrites & Hfilter & Hpart)].
    split.
    { rewrite Htotal, Hsplit, length_app. lia. }
    exists (quiet ++ [Upsert index vectors; Uploaded (uploaded + length batch) (length schemas)]
             ++ [Sleep 1000] ++ new), (vectors :: batches).
    assert (Hrest : drop (i + batchSize) schemas ≠ []).
    { intros Hnil. apply (f_equal length) in Hnil. rewrite length_drop in Hnil.
      simpl in Hnil. lia. }
    split; [|split; [|split]].
    + rewrite Htrace, sleep_trace. unfold after. simpl. rewrite <- !app_assoc. reflexivity.
    + rewrite !bulk_writes_app. fold quiet in Hnowrite. rewrite Hnowrite, Hwrites. reflexivity.
    + rewrite !List.filter_app, Hquiet, Hfilter. simpl.
      destruct batches as [|b bs]; [|reflexivity].
      inversion Hpart. congruence.
    + rewrite Hsplit. apply Partitioned_cons; auto. rewrite Hlen. lia.
  - rewrite upload_loop_step in Hrun.
    destruct (decide (i + batchSize < length schemas)); [lia|].
    injection Hrun as <- <-.
    assert (Hdrop : drop (i + batchSize) schemas = []) by (apply drop_ge; lia).
    rewrite Hdrop, app_nil_r in Hsplit.
    split.
    { rewrite Hsplit. reflexivity. }
    exists (quiet ++ [Upsert index vectors; Uploaded (uploaded + length batch) (length schemas)]),
           [vectors].
    split; [|split; [|split]].
    + unfold after. simpl. rewrite <- !app_assoc. reflexivity.
    + rewrite bulk_writes_app. fold quiet in Hnowrite. rewrite Hnowrite. reflexivity.
    + rewrite List.filter_app, Hquiet. reflexivity.
    + rewrite Hsplit. apply Partitioned_last; auto; rewrite Hlen; lia.
Qed.

Lemma uploadToPinecone_Ok_inv (env : Env) (index : string) (schemas : list TableSchema)
    (w w' : World) (v : value) :
  uploadToPinecone env index schemas w = (w', Ok v) →
  v = VUndefined ∧
  ∃ w1 total, upload_loop env index schemas 0 0 w = (w1, Ok total) ∧
              w' = after w1 [AllUploaded total].
Proof.
  unfold uploadToPinecone. rewrite run_bind.
  destruct (upload_loop env index schemas 0 0 w) as [w1 [total|e]]; [|discriminate].
  rewrite run_bind, emit_run. intros H. injection H as <- <-. eauto.
Qed.

(** C5 (as the code has it).  [uploadToPinecone] returns no value: when
    it completes, its result is [undefined].  The count it keeps, which
    its last log line reports, is the number of tables of the catalog, and
    so is the number of records it handed to the vector store. *)
Theorem upload_returns_undefined (env : Env) (index : string)
    (schemas : list TableSchema) (w w' : World) (v : value) :
  uploadToPinecone env index schemas w = (w', Ok v) →
  v = VUndefined ∧
  ∃ new, trace w' = trace w ++ new ++ [AllUploaded (length schemas)] ∧
         length (upserted new) = length schemas.
Proof.
  intros H. apply uploadToPinecone_Ok_inv in H.
  destruct H as (-> & w1 & total & Hloop & ->). split; [reflexivity|].
  apply (upload_loop_Ok env index schemas (length schemas)) in Hloop; [|lia].
  destruct Hloop as [-> (new & batches & Htrace & Hwrites & _ & Hpart)].
  exists new. split.
  - simpl. rewrite Htrace, <- app_assoc. reflexivity.
  - apply Partitioned_ids, (f_equal length) in Hpart.
    rewrite !length_map in Hpart. unfold upserted. rewrite Hwrites. exact Hpart.
Qed.

(** C7.  A run of [uploadToPinecone] that completes wrote the catalog in
    consecutive batches of [batchSize] = 100 tables (the last one may be
    shorter), in catalog order, one bulk write per batch; the ids written
    are the table names, each table once; and between two writes, and
    only there, it paused for 1000 ms. *)
Theorem upload_in_batches (env : Env) (index : string)
    (schemas : list TableSchema) (w w' : World) (v : value) :
  uploadToPinecone env index schemas w = (w', Ok v) →
  ∃ new batches,
    trace w' = trace w ++ new ∧
    List.filter write_or_pause new = separated (Sleep 1000) (map (Upsert index) batches) ∧
    Partitioned batches schemas ∧
    Forall (fun b => length b ≤ 100) batches ∧
    map id (concat batches) = map table_name schemas.
Proof.
  intros H. apply uploadToPinecone_Ok_inv in H.
  destruct H as (_ & w1 & total & Hloop & ->).
  apply (upload_loop_Ok env index schemas (length schemas)) in Hloop; [|lia].
  destruct Hloop as [_ (new & batches & Htrace & _ & Hfilter & Hpart)].
  rewrite drop_0 in Hpart.
  exists (new ++ [AllUploaded total]), batches. split; [|split; [|split; [|split]]].
  - simpl. rewrite Htrace, <- app_assoc. reflexivity.
  - rewrite List.filter_app, Hfilter. simpl. apply app_nil_r.
  - exact Hpart.
  - clear -Hpart. induction Hpart as [|b ts _ Hle Hb|b bs ts rest Hlen _ Hb _ IH].
    + constructor.
    + constructor; [|constructor]. apply (f_equal length) in Hb.
      rewrite !length_map in Hb. unfold batchSize in Hle. lia.
    + constructor; [|exact IH]. apply (f_equal length) in Hb.
      rewrite !length_map in Hb. unfold batchSize in Hlen. lia.
  - apply Partitioned_ids, Hpart.
Qed.

(** ** The loop, when an embedding request fails *)

Lemma upload_loop_rejected (env : Env) (index : string) (schemas : list TableSchema)
    (k : nat) (schema : TableSchema) (e : error) :
  schemas !! k = Some schema →
  vector_outcome env schema = Throw e →
  ∀ (n i uploaded : nat) (w : World),
    length schemas - i ≤ n → i ≤ k →
    ∃ w' e' new j,
      upload_loop env index schemas i uploaded w = (w', Throw e') ∧
      trace w' = trace w ++ new ∧
      i + batchSize * j ≤ k ∧
      map id (upserted new) = map table_name (take (batchSize * j) (drop i schemas)).
Proof.
  intros Hk Hfail. pose proof (lookup_lt_Some _ _ _ Hk) as Hklen.
  induction n as [|n IH]; intros i uploaded w Hn Hik; [lia|].
  rewrite upload_loop_step.
  destruct (decide (i < length schemas)) as [_|Hi]; [|lia].
  pose proof (upload_batch_run env index schemas i uploaded w) as Hbatch.
  cbv zeta in Hbatch. rewrite Hbatch. clear Hbatch.
  set (batch := take batchSize (drop i schemas)) in *.
  destruct (vector_events_quiet env batch) as [_ Hnowrite].
  set (quiet := flat_map (vector_events env) batch) in *.
  assert (Hquiet : upserted quiet = []) by (unfold upserted; rewrite Hnowrite; reflexivity).
  assert (Hnone : ∀ w0 e0, ∃ w' e' new j,
             (after w0 quiet, @Throw nat e0) = (w', Throw e') ∧
             trace w' = trace w0 ++ new ∧ i + batchSize * j ≤ k ∧
             map id (upserted new) = map table_name (take (batchSize * j) (drop i schemas))).
  { intros w0 e0. exists (after w0 quiet), e0, quiet, 0.
    rewrite Hquiet, Nat.mul_0_r, take_0.
    split; [reflexivity|]. split; [reflexivity|]. split; [lia | reflexivity]. }
  destruct (all_settled (map (vector_outcome env) batch)) as [vectors|e0] eqn:Hall;
    [|apply Hnone].
  destruct (decide (k < i + batchSize)) as [Hin|Hout].
  { exfalso.
    assert (Hlook : map (vector_outcome env) batch !! (k - i) = Some (Throw e)).
    { rewrite lookup_map. unfold batch.
      rewrite lookup_take_lt by lia. rewrite lookup_drop.
      replace (i + (k - i)) with k by lia. rewrite Hk. simpl. rewrite Hfail. reflexivity. }
    destruct (all_settled_rejects _ _ _ Hlook) as (e' & He'). congruence. }
  apply all_settled_ids in Hall.
  assert (Hlen : length batch = batchSize).
  { unfold batch. rewrite length_take, length_drop. unfold batchSize in *. lia. }
  destruct (upsert_fault env vectors) as [e0|].
  - exists (after (after w quiet) [Upsert index vectors]), e0,
           (quiet ++ [Upsert index vectors]), 1.
    split; [reflexivity|]. split; [simpl; rewrite <- app_assoc; reflexivity|].
    split; [lia|]. rewrite upserted_app, Hquiet, Nat.mul_1_r.
    rewrite upserted_write. exact Hall.
  - match goal with
    | |- context [upload_loop env index schemas ?i' ?u' ?w1] =>
        destruct (IH i' u' w1) as (w' & e' & new & j & Hrun & Htrace & Hj & Hids);
          [unfold batchSize in *; lia | lia |]
    end.
    exists w', e',
      (quiet ++ [Upsert index vectors; Uploaded (uploaded + length batch) (length schemas)]
         ++ (if decide (i + batchSize < length schemas) then [Sleep 1000] else []) ++ new),
      (S j).
    split; [exact Hrun|]. split; [|split; [lia|]].
    + rewrite Htrace. destruct (decide (i + batchSize < length schemas));
        [rewrite sleep_trace|]; unfold after; simpl; rewrite <- !app_assoc; reflexivity.
    + rewrite !upserted_app, Hquiet.
      assert (Hpause : upserted (if decide (i + batchSize < length schemas)
                                 then [Sleep 1000] else []) = [])
        by (destruct (decide (i + batchSize < length schemas)); reflexivity).
      rewrite Hpause, upserted_write_logged, !app_nil_l, map_app, Hall, Hids.
      replace (batchSize * S j) with (batchSize + batchSize * j) by lia.
      rewrite <- take_take_drop, map_app, drop_drop. reflexivity.
Qed.

Lemma generateEmbedding_raises (env : Env) (text : string) (e : error) :
  (∀ w, snd (generateEmbedding env text w) = Throw e) →
  embedding_outcome env text = Throw e.
Proof.
  intros H. specialize (H world0). rewrite generateEmbedding_run in H.
  destruct (embedding_outcome env text); simpl in H; congruence.
Qed.

(** C6.  If the embedding request for some table of the catalog fails
    ([generateEmbedding] raises on the table's text), the run of
    [uploadToPinecone] ends with an exception, and what it sent to the
    vector store before are whole batches that precede the failing
    table's batch: nothing of that batch or of a later one. *)
Theorem embedding_failure_aborts (env : Env) (index : string)
    (schemas : list TableSchema) (k : nat) (schema : TableSchema)
    (text : string) (e : error) (w : World) :
  schemas !! k = Some schema →
  createSchemaText schema = Ok text →
  (∀ w1, snd (generateEmbedding env text w1) = Throw e) →
  ∃ w' e' new j,
    uploadToPinecone env index schemas w = (w', Throw e') ∧
    trace w' = trace w ++ new ∧
    j ≤ k / batchSize ∧
    map id (upserted new) = map table_name (take (batchSize * j) schemas).
Proof.
  intros Hk Htext Hraise. apply generateEmbedding_raises in Hraise.
  assert (Hfail : vector_outcome env schema = Throw e).
  { unfold vector_outcome. rewrite Htext, bind_Ok, Hraise. reflexivity. }
  destruct (upload_loop_rejected env index schemas k schema e Hk Hfail
              (length schemas) 0 0 w) as (w' & e' & new & j & Hrun & Htrace & Hj & Hids);
    [lia | lia |].
  exists w', e', new, j. split; [|split; [|split]].
  - unfold uploadToPinecone. rewrite run_bind, Hrun. reflexivity.
  - exact Htrace.
  - apply Nat.div_le_lower_bound; [discriminate | lia].
  - rewrite drop_0 in Hids. exact Hids.
Qed.

(** ** initializeIndex *)

Lemma index_handler_throws (e : error) (w1 w2 : World) (x : string) :
  (_ ← emit (IndexError e); throw e) w1 ≠ (w2, Ok x).
Proof. rewrite run_bind, emit_run. unfold throw. congruence. Qed.

Lemma elapsed_others_not_queryable (ms : Z) (l : list IndexModel) (name : string) :
  existsb (fun i => String.eqb (idx_name i) name) l = false →
  existsb (fun i => String.eqb (idx_name i) name && Z.eqb (ready_in i) 0)
    (map (elapse ms) l) = false.
Proof.
  induction l as [|i l IH]; simpl; [reflexivity|].
  intros H. apply orb_false_elim in H. destruct H as [-> Hl]. simpl. auto.
Qed.

(** C8 (as the code has it).  [initializeIndex], when it returns, returns
    the handle of the index [tuva-schemas].  If the store already lists
    the index, it has asked for the list and done nothing else: the store
    is unchanged.  Otherwise it has asked for the list, created the index
    with dimension 1536 and the cosine metric, and then paused for a
    fixed 10000 ms, in that order and without any write; it does not ask
    the store whether the index is ready, which it is after the pause
    exactly when the store needs no more than 10000 ms to prepare it. *)
Theorem initializeIndex_creates_then_pauses (env : Env) (w w' : World) (h : string) :
  initializeIndex env w = (w', Ok h) →
  h = PINECONE_INDEX_NAME ∧
  if in_store w PINECONE_INDEX_NAME
  then w' = after w [ListIndexes]
  else
    trace w' = trace w ++
      [ListIndexes;
       CreateIndex (mkOptions PINECONE_INDEX_NAME 1536 "cosine" "aws" "us-east-1");
       Sleep 10000] ∧
    store w' = map (elapse 10000)
                 (store w ++ [mkIndex PINECONE_INDEX_NAME 1536 "cosine"
                                (Z.max 0 (provisioning_ms env))]) ∧
    (queryable w' PINECONE_INDEX_NAME = true ↔ (provisioning_ms env ≤ 10000)%Z).
Proof.
  unfold initializeIndex. intros H.
  apply try_catch_rethrow_Ok_inv in H; [|intros; apply index_handler_throws].
  apply run_bind_Ok_inv in H. destruct H as (indexList & w1 & Hlist & H).
  unfold listIndexes in Hlist.
  rewrite run_bind, emit_run in Hlist.
  destruct (listIndexes_fault env); [discriminate|]. simpl in Hlist.
  injection Hlist as <- <-.
  change (indexExists (mkIndexList (Some (store w))))
    with (in_store w PINECONE_INDEX_NAME) in H.
  revert H. destruct (in_store w PINECONE_INDEX_NAME) eqn:Hexists; intros H.
  - unfold mret, M_ret in H. injection H as <- <-. split; reflexivity.
  - apply run_bind_Ok_inv in H. destruct H as ([] & w2 & Hcreate & H).
    unfold createIndex in Hcreate. rewrite run_bind, emit_run in Hcreate.
    destruct (createIndex_fault env); [discriminate|]. simpl in Hcreate.
    injection Hcreate as <-. simpl in H. injection H as <- <-.
    split; [reflexivity|]. split; [|split].
    + simpl. rewrite <- !app_assoc. reflexivity.
    + reflexivity.
    + unfold queryable. simpl. rewrite map_app, existsb_app.
      rewrite (elapsed_others_not_queryable _ _ _ Hexists). simpl.
      rewrite orb_false_r, Z.eqb_eq. lia.
Qed.

(** C8 fails as stated: with a store that needs a minute to prepare a
    new index, [initializeIndex] returns the handle of an index that is
    not ready, and [setupTuva] has written to it by the time it ends,
    when the index is still not ready. *)
Lemma initializeIndex_returns_before_ready :
  (∃ w', initializeIndex env_slow world0 = (w', Ok PINECONE_INDEX_NAME) ∧
         queryable w' PINECONE_INDEX_NAME = false) ∧
  (∃ w' vectors, setupTuva env_slow world0 = (w', Ok tt) ∧
                 bulk_writes (trace w') = [vectors] ∧
                 queryable w' PINECONE_INDEX_NAME = false).
Proof.
  split.
  - eexists. split; vm_compute; reflexivity.
  - do 2 eexists. split; [vm_compute; reflexivity|]. split; vm_compute; reflexivity.
Qed.

Lemma initializeIndex_creates_then_pauses_witness :
  ∃ w', initializeIndex env_slow world0 = (w', Ok PINECONE_INDEX_NAME) ∧
        trace w' =
          [ListIndexes;
           CreateIndex (mkOptions PINECONE_INDEX_NAME 1536 "cosine" "aws" "us-east-1");
           Sleep 10000].
Proof.
  eexists. split; [vm_compute; reflexivity|].
  refine (proj1 (proj2 (initializeIndex_creates_then_pauses env_slow world0 _ _ _))).
  vm_compute. reflexivity.
Defined.

(** ** The properties at sample inputs *)

Lemma shapeA_one_table_per_model_witness :
  valid_shapeA patient_v2 = true ∧
  ∃ schemas, parse_document patient_v2 = Ok schemas ∧
             Forall2 modelA_ok
               (List.filter named_with_columns (models_of patient_v2)) schemas.
Proof.
  split; [reflexivity|].
  apply (shapeA_one_table_per_model patient_v2). reflexivity.
Defined.

Lemma shapeB_bare_strings_and_default_type_witness :
  ∃ schemas,
    parse_document keyed_doc = Ok schemas ∧
    Forall2 (tableB_ok keyed_doc) (table_keys keyed_doc) schemas.
Proof.
  eexists. split; [reflexivity|].
  refine (proj1 (shapeB_bare_strings_and_default_type keyed_doc _ _ _));
    reflexivity.
Defined.


(** C5 fails as stated: on a catalog of three tables the run completes
    and what it returns is not the number 3. *)
Lemma upload_result_is_not_the_count :
  snd (uploadToPinecone env_ready PINECONE_INDEX_NAME (sample_catalog 3) world0)
    = Ok VUndefined ∧
  snd (uploadToPinecone env_ready PINECONE_INDEX_NAME (sample_catalog 3) world0)
    ≠ Ok (VNum (NInt (Z.of_nat (length (sample_catalog 3))))).
Proof. split; [vm_compute; reflexivity | vm_compute; discriminate]. Qed.

Lemma upload_returns_undefined_witness :
  ∃ w' v,
    uploadToPinecone env_ready PINECONE_INDEX_NAME (sample_catalog 3) world0 = (w', Ok v) ∧
    v = VUndefined ∧
    ∃ new, trace w' = trace world0 ++ new ++ [AllUploaded (length (sample_catalog 3))] ∧
           length (upserted new) = length (sample_catalog 3).
Proof.
  do 2 eexists. split; [vm_compute; reflexivity|].
  eapply (upload_returns_undefined env_ready PINECONE_INDEX_NAME (sample_catalog 3) world0).
  vm_compute. reflexivity.
Defined.

Lemma upload_in_batches_witness :
  ∃ w' v,
    uploadToPinecone env_ready PINECONE_INDEX_NAME (sample_catalog 201) world0 = (w', Ok v) ∧
    ∃ new batches,
      trace w' = trace world0 ++ new ∧
      List.filter write_or_pause new =
        separated (Sleep 1000) (map (Upsert PINECONE_INDEX_NAME) batches) ∧
      Partitioned batches (sample_catalog 201) ∧
      Forall (fun b => length b ≤ 100) batches ∧
      map id (concat batches) = map table_name (sample_catalog 201).
Proof.
  do 2 eexists. split; [vm_compute; reflexivity|].
  eapply (upload_in_batches env_ready PINECONE_INDEX_NAME (sample_catalog 201) world0).
  vm_compute. reflexivity.
Defined.

Lemma embedding_failure_aborts_witness :
  sample_catalog 201 !! 150 = Some (numbered 150) ∧
  ∃ w' e' new j,
    uploadToPinecone env_throttled PINECONE_INDEX_NAME (sample_catalog 201) world0
      = (w', Throw e') ∧
    trace w' = trace world0 ++ new ∧
    j ≤ 150 / batchSize ∧
    map id (upserted new) = map table_name (take (batchSize * j) (sample_catalog 201)).
Proof.
  split; [reflexivity|].
  apply (embedding_failure_aborts env_throttled PINECONE_INDEX_NAME (sample_catalog 201)
           150 (numbered 150) ("150" +:+ nl +:+ nl +:+ "Columns:" +:+ nl)
           (Failure "throttled") world0).
  - reflexivity.
  - reflexivity.
  - intros w1. reflexivity.
Defined.

(** * Further properties *)

(** ** parseYamlFile: when a document is read through *)

Lemma js_or_cases (a v : value) (r : result value) :
  js_or a r = Ok v → (truthy a = true ∧ v = a) ∨ (truthy a = false ∧ r = Ok v).
Proof.
  unfold js_or. destruct (truthy a); intros H; [left | right]; split; congruence.
Qed.

Lemma shapeA_column_null (col : value) :
  nullish col = true → shapeA_column col = Throw TypeError.
Proof. destruct col; simpl; intros; try discriminate; reflexivity. Qed.

Lemma shapeA_columns_unreadable (cols : list value) :
  forallb (fun col => negb (nullish col)) cols = false →
  ∃ e, rmap shapeA_column cols = Throw e.
Proof.
  induction cols as [|col cols IH]; simpl; [discriminate|].
  intros H. apply andb_false_iff in H.
  destruct (nullish col) eqn:Hcol.
  - rewrite (shapeA_column_null col Hcol). eauto.
  - destruct (shapeA_column_readable col Hcol) as (c & -> & _). rewrite bind_Ok.
    destruct H as [H|H]; [discriminate|].
    destruct (IH H) as (e & ->). eauto.
Qed.

Lemma shapeA_model_unreadable (model : value) :
  readable_model model = false → ∃ e, shapeA_model model = Throw e.
Proof.
  unfold readable_model, shapeA_model. intros H.
  destruct (nullish model) eqn:Hm.
  { destruct model; try discriminate; simpl; eauto. }
  simpl in H. rewrite !(get_field model) by assumption. rewrite !bind_Ok.
  unfold named_with_columns in H.
  destruct (truthy (field model "name")); simpl in H; [|discriminate].
  destruct (truthy (field model "columns")) eqn:Hc; simpl in H; [|discriminate].
  destruct (shapeA_description_total model Hm) as (d & ->). rewrite bind_Ok.
  destruct (field model "columns") as [| | | | |cols|]; simpl; eauto.
  destruct (shapeA_columns_unreadable cols H) as (e & ->). eauto.
Qed.

Lemma shapeA_models_total (models : list value) (acc : list TableSchema) :
  (∃ out, shapeA_models models acc = Ok out) ↔
  forallb readable_model models = true.
Proof.
  split.
  - revert acc. induction models as [|model models IH]; simpl; intros acc [out H];
      [reflexivity|].
    bind_inv H. destruct (readable_model model) eqn:Hm.
    + simpl. eapply IH. eauto.
    + destruct (shapeA_model_unreadable model Hm) as (e & He). congruence.
  - intros H. destruct (shapeA_models_readable models acc H) as (out & Hout & _). eauto.
Qed.

(** X1.  In a versioned model list, the entries are read all or none:
    the document gives records exactly when every entry of [models] is
    readable, and a single [null] entry, [null] column or column list
    that is not an array leaves the file without any record. *)
Theorem versioned_entries_all_or_none (fields : list (string * value))
    (models : list value) :
  strict_eq_2 (lookup_field fields "version") = true →
  lookup_field fields "models" = VArr models →
  ((∃ schemas, parse_document (VObj fields) = Ok schemas) ↔
   forallb readable_model models = true) ∧
  (forallb readable_model models = false →
   ∀ env file, read_yaml env file = Ok (VObj fields) → file_records env file = []).
Proof.
  intros Hversion Hmodels.
  assert (Hdoc : parse_document (VObj fields) = shapeA_models models []).
  { unfold parse_document. simpl. rewrite Hversion, Hmodels. reflexivity. }
  split.
  - rewrite Hdoc. apply shapeA_models_total.
  - intros Hbad env file Hread. unfold file_records, file_outcome.
    rewrite Hread, bind_Ok, Hdoc.
    destruct (shapeA_models models []) as [out|e] eqn:Hout; [|reflexivity].
    assert (Hall : forallb readable_model models = true)
      by (apply (shapeA_models_total models []); eauto).
    congruence.
Qed.

Lemma versioned_entries_all_or_none_witness :
  ((∃ schemas, parse_document (VObj versioned_with_null) = Ok schemas) ↔
   forallb readable_model
     [VObj [("name", VStr "patient"); ("columns", VArr [VObj [("name", VStr "id")]])];
      VNull] = true) ∧
  parse_document (VObj versioned_with_null) = Throw TypeError.
Proof.
  split; [|reflexivity].
  refine (proj1 (versioned_entries_all_or_none versioned_with_null _ _ _)); reflexivity.
Defined.

(** X2.  A document with the version marker is read through its
    [models] key alone: whatever else it holds, even a key that the
    keyed-map reading would take for a table, changes nothing. *)
Theorem versioned_reads_models_only (fields : list (string * value)) :
  strict_eq_2 (lookup_field fields "version") = true →
  parse_document (VObj fields) =
  parse_document (VObj [("version", VNum (NInt 2));
                        ("models", lookup_field fields "models")]).
Proof.
  intros Hversion. unfold parse_document. simpl.
  rewrite Hversion. reflexivity.
Qed.

Lemma versioned_reads_models_only_witness :
  ∃ table, parse_document (VObj versioned_with_extra) = Ok [table] ∧
           table_name table = VStr "patient".
Proof.
  eexists. split.
  - rewrite (versioned_reads_models_only versioned_with_extra) by reflexivity.
    reflexivity.
  - reflexivity.
Defined.

Lemma shapeB_column_null (col : value) :
  nullish col = true → shapeB_column col = Throw TypeError.
Proof. destruct col; simpl; intros; try discriminate; reflexivity. Qed.

Lemma shapeB_column_total (col : value) :
  nullish col = false → ∃ c, shapeB_column col = Ok c.
Proof.
  intros Hcol. unfold shapeB_column.
  destruct (typeof_string col); [eauto|].
  rewrite !(get_field col) by assumption. rnorm. eauto.
Qed.

Lemma shapeB_columns_total (cols : list value) :
  (∃ cs, rmap shapeB_column cols = Ok cs) ↔
  forallb (fun col => negb (nullish col)) cols = true.
Proof.
  induction cols as [|col cols IH]; simpl.
  - split; eauto.
  - destruct (nullish col) eqn:Hcol; simpl.
    + rewrite (shapeB_column_null col Hcol). split; [intros [cs H]|]; discriminate.
    + destruct (shapeB_column_total col Hcol) as (c & ->). rewrite bind_Ok.
      rewrite <- IH. split.
      * intros [cs H]. bind_inv H. eauto.
      * intros [cs ->]. eauto.
Qed.

Lemma shapeB_entry_total (data : value) (key : string) :
  nullish data = false →
  (∃ x, shapeB_entry data key = Ok x) ↔ readable_entry (field data key) = true.
Proof.
  intros Hdata. unfold shapeB_entry. rewrite (get_field data) by assumption.
  rewrite bind_Ok. generalize (field data key). intros v.
  destruct (nullish v) eqn:Hv.
  { destruct v; try discriminate; simpl.
    - split; eauto.
    - split; [intros [x H]|]; discriminate. }
  assert (Hread : readable_entry v =
            if typeof_object v && truthy (field v "columns") then
              match field v "columns" with
              | VArr cols => forallb (fun col => negb (nullish col)) cols
              | _ => false
              end
            else true) by (destruct v; try discriminate; reflexivity).
  rewrite Hread. destruct (typeof_object v); simpl; [|split; eauto].
  rewrite !(get_field v) by assumption. rewrite bind_Ok.
  destruct (truthy (field v "columns")) eqn:Hc; [|split; eauto].
  rnorm. unfold or_value at 2. rewrite Hc.
  destruct (field v "columns") as [| | | | |cols|]; simpl;
    try (split; [intros [x H]|]; discriminate).
  rewrite <- shapeB_columns_total. split.
  - intros [x H]. bind_inv H. eauto.
  - intros [cs ->]. eauto.
Qed.

Lemma shapeB_keys_total (data : value) (keys : list string) (acc : list TableSchema) :
  nullish data = false →
  (∃ out, shapeB_keys data keys acc = Ok out) ↔
  forallb (fun key => readable_entry (field data key)) keys = true.
Proof.
  intros Hdata. revert acc. induction keys as [|key keys IH]; simpl; intros acc.
  - split; eauto.
  - rewrite andb_true_iff, <- (shapeB_entry_total data key Hdata). split.
    + intros [out H]. bind_inv H. split; [eauto|]. apply (IH (push acc a)). eauto.
    + intros [[x ->] Hkeys]. rewrite bind_Ok. apply IH, Hkeys.
Qed.

(** X3.  A keyed map is read all or none as well: it gives records
    exactly when every one of its values is readable.  A key without a
    value ([null]), a table whose [columns] is not an array, or a [null]
    column leaves the file without any record. *)
Theorem keyed_map_all_or_none (data : value) :
  is_shapeB data = true →
  ((∃ schemas, parse_document data = Ok schemas) ↔
   forallb (fun key => readable_entry (field data key)) (object_keys data) = true) ∧
  (forallb (fun key => readable_entry (field data key)) (object_keys data) = false →
   ∀ env file, read_yaml env file = Ok data → file_records env file = []).
Proof.
  unfold is_shapeB. intros H. apply andb_prop in H. destruct H as [Hobj Hversion].
  apply negb_true_iff in Hversion.
  assert (Hdata : nullish data = false) by (destruct data; try discriminate; reflexivity).
  assert (Hdoc : parse_document data = shapeB_keys data (object_keys data) []).
  { unfold parse_document. rewrite Hobj, !(get_field data) by assumption.
    rewrite bind_Ok, Hversion. reflexivity. }
  split.
  - rewrite Hdoc. apply shapeB_keys_total, Hdata.
  - intros Hbad env file Hread. unfold file_records, file_outcome.
    rewrite Hread, bind_Ok, Hdoc.
    destruct (shapeB_keys data (object_keys data) []) as [out|e] eqn:Hout; [|reflexivity].
    assert (Hall : forallb (fun key => readable_entry (field data key))
                     (object_keys data) = true)
      by (apply (shapeB_keys_total data _ [] Hdata); eauto).
    congruence.
Qed.

Lemma keyed_map_all_or_none_witness :
  is_shapeB keyed_with_null = true ∧
  parse_document keyed_with_null = Throw TypeError ∧
  ∀ env file, read_yaml env file = Ok keyed_with_null → file_records env file = [].
Proof.
  split; [reflexivity|]. split; [reflexivity|].
  refine (proj2 (keyed_map_all_or_none keyed_with_null _) _); reflexivity.
Defined.

(** ** parseYamlFile: what every record has *)

Lemma js_or_described (a v : value) :
  js_or a (Ok (VStr "")) = Ok v → described v = true.
Proof.
  intros H. apply js_or_cases in H. unfold described.
  destruct H as [[Ht ->]|[_ H]]; [rewrite Ht; reflexivity|].
  injection H as <-. reflexivity.
Qed.

Lemma js_or_type (a b v : value) :
  js_or a (x ← Ok b; js_or x (Ok (VStr "TEXT"))) = Ok v → truthy v = true.
Proof.
  intros H. apply js_or_cases in H. destruct H as [[Ht ->]|[_ H]]; [exact Ht|].
  rewrite bind_Ok in H. apply js_or_cases in H.
  destruct H as [[Ht ->]|[_ H]]; [exact Ht|]. injection H as <-. reflexivity.
Qed.

Lemma shapeA_column_complete (col : value) (c : Column) :
  shapeA_column col = Ok c → column_complete c = true.
Proof.
  unfold shapeA_column. intros H.
  bind_inv H. apply get_Ok_field in Ha. destruct Ha as [_ Hcol].
  rewrite !(get_field col) in H by assumption. rewrite bind_Ok in H.
  bind_inv H. apply js_or_type in Ha.
  rewrite ?bind_Ok in H. bind_inv H. apply js_or_described in Ha0.
  injection H as <-. unfold column_complete. simpl. rewrite Ha, Ha0. reflexivity.
Qed.

Lemma shapeB_column_complete (col : value) (c : Column) :
  shapeB_column col = Ok c → column_complete c = true.
Proof.
  unfold shapeB_column. intros H. destruct (typeof_string col).
  - rewrite !bind_Ok in H. injection H as <-. reflexivity.
  - bind_inv H. apply get_Ok_field in Ha. destruct Ha as [_ Hcol].
    rewrite !(get_field col) in H by assumption. rewrite bind_Ok in H.
    bind_inv H. apply js_or_type in Ha.
    rewrite ?bind_Ok in H. bind_inv H. apply js_or_described in Ha0.
    injection H as <-. unfold column_complete. simpl. rewrite Ha, Ha0. reflexivity.
Qed.

Lemma rmap_forallb {A B} (f : A -> result B) (p : B -> bool) (l : list A) (l' : list B) :
  (∀ x y, f x = Ok y → p y = true) → rmap f l = Ok l' → forallb p l' = true.
Proof.
  intros Hf H. apply rmap_Forall2 in H.
  induction H as [|x y l l' Hxy _ IH]; simpl; [reflexivity|].
  rewrite (Hf _ _ Hxy), IH. reflexivity.
Qed.

Lemma shapeA_description_described (model d : value) :
  shapeA_description model = Ok d → described d = true.
Proof.
  unfold shapeA_description. intros H. bind_inv H.
  apply js_or_cases in H. unfold described.
  destruct H as [[Ht ->]|[_ H]]; [rewrite Ht; reflexivity|].
  do 3 bind_inv H. apply js_or_described in H. exact H.
Qed.

Lemma shapeA_model_complete (model : value) (t : TableSchema) :
  shapeA_model model = Ok (Some t) → record_complete t = true.
Proof.
  unfold shapeA_model. intros H. bind_inv H.
  destruct (truthy a); [|discriminate]. bind_inv H.
  destruct (truthy a0); [|discriminate]. do 2 bind_inv H. injection H as <-.
  unfold record_complete. simpl.
  rewrite (shapeA_description_described _ _ Ha1). simpl.
  destruct a0; try discriminate. simpl in Ha2.
  eapply rmap_forallb; [apply shapeA_column_complete | exact Ha2].
Qed.

Lemma shapeB_entry_complete (data : value) (key : string) (t : TableSchema) :
  shapeB_entry data key = Ok (Some t) → record_complete t = true.
Proof.
  unfold shapeB_entry. intros H. bind_inv H.
  destruct (typeof_object a); [|discriminate]. bind_inv H.
  destruct (truthy a0); [|discriminate]. do 4 bind_inv H. injection H as <-.
  unfold record_complete. simpl.
  rewrite (js_or_described _ _ Ha2). simpl.
  destruct a3; try discriminate. simpl in Ha4.
  eapply rmap_forallb; [apply shapeB_column_complete | exact Ha4].
Qed.

Lemma push_complete (schemas : list TableSchema) (x : option TableSchema) :
  forallb record_complete schemas = true →
  (∀ t, x = Some t → record_complete t = true) →
  forallb record_complete (push schemas x) = true.
Proof.
  intros Hs Hx. destruct x as [t|]; simpl; [|exact Hs].
  rewrite forallb_app, Hs. simpl. rewrite (Hx t eq_refl). reflexivity.
Qed.

Lemma shapeA_models_complete (models : list value) (acc out : list TableSchema) :
  forallb record_complete acc = true →
  shapeA_models models acc = Ok out → forallb record_complete out = true.
Proof.
  revert acc. induction models as [|model models IH]; simpl; intros acc Hacc H.
  - injection H as <-. exact Hacc.
  - bind_inv H. eapply IH; [|exact H]. apply push_complete; [exact Hacc|].
    intros t ->. eapply shapeA_model_complete, Ha.
Qed.

Lemma shapeB_keys_complete (data : value) (keys : list string)
    (acc out : list TableSchema) :
  forallb record_complete acc = true →
  shapeB_keys data keys acc = Ok out → forallb record_complete out = true.
Proof.
  revert acc. induction keys as [|key keys IH]; simpl; intros acc Hacc H.
  - injection H as <-. exact Hacc.
  - bind_inv H. eapply IH; [|exact H]. apply push_complete; [exact Hacc|].
    intros t ->. eapply shapeB_entry_complete, Ha.
Qed.

(** X4.  Whatever the document, the records [parseYamlFile] builds from
    it are complete: every column has a type that is not missing (a
    declared one or ["TEXT"]), and the description of every column and of
    the table is a value or the empty string, never [undefined] or
    [null]. *)
Theorem parsed_records_are_complete (data : value) (schemas : list TableSchema) :
  parse_document data = Ok schemas →
  forallb record_complete schemas = true.
Proof.
  unfold parse_document. intros H.
  destruct (truthy data && typeof_object data); [|injection H as <-; reflexivity].
  bind_inv H. destruct (strict_eq_2 a).
  - do 3 bind_inv H. eapply shapeA_models_complete; [|exact H]. reflexivity.
  - eapply shapeB_keys_complete; [|exact H]. reflexivity.
Qed.

Lemma parsed_records_are_complete_witness :
  ∃ schemas, parse_document keyed_doc = Ok schemas ∧
             forallb record_complete schemas = true.
Proof.
  eexists. split; [reflexivity|].
  apply (parsed_records_are_complete keyed_doc). reflexivity.
Defined.

(** ** The documentation merge *)

Lemma doc_for_truthy (documentation : gmap string value) (name : string) :
  truthy (doc_for documentation name) = true.
Proof.
  unfold doc_for, or_value.
  destruct (truthy (default VUndefined (documentation !! name))) eqn:H; [exact H|].
  reflexivity.
Qed.

Lemma enrich_named (documentation : gmap string value) (schema : TableSchema)
    (name : string) :
  table_name schema = VStr name →
  enrich documentation schema =
  Ok (mkTable (table_name schema)
        (or_value (description schema)
           (or_value (field (doc_for documentation name) "description")
              (or_value (field (doc_for documentation name) "content") (VStr ""))))
        (columns schema)
        (or_value (field (doc_for documentation name) "content") (description schema))).
Proof.
  intros Hname. unfold enrich. rewrite Hname. simpl to_string. rnorm.
  fold (doc_for documentation name).
  pose proof (truthy_not_nullish _ (doc_for_truthy documentation name)) as Hdoc.
  rewrite !(get_field (doc_for documentation name)) by assumption. rnorm.
  reflexivity.
Qed.

(** X5.  The documentation merge, for a table whose name is a string,
    never fails and keeps name and columns.  The description is the
    table's own if it has one, else the documentation's [description],
    else its [content], else empty; [full_description] is the
    documentation's [content], else the table's own description.  A
    documentation entry that is missing or falsy counts as an empty
    one. *)
Theorem merge_precedence (documentation : gmap string value)
    (schema : TableSchema) (name : string) :
  table_name schema = VStr name →
  let doc := doc_for documentation name in
  ∃ entry,
    enrich documentation schema = Ok entry ∧
    table_name entry = VStr name ∧
    columns entry = columns schema ∧
    description entry =
      or_value (description schema)
        (or_value (field doc "description") (or_value (field doc "content") (VStr ""))) ∧
    full_description entry = or_value (field doc "content") (description schema) ∧
    (truthy (description schema) = true → description entry = description schema) ∧
    (documentation !! name = None →
     description entry = or_value (description schema) (VStr "") ∧
     full_description entry = description schema).
Proof.
  intros Hname doc. eexists. split; [apply (enrich_named _ _ name Hname)|].
  simpl. split; [exact Hname|]. split; [reflexivity|]. split; [reflexivity|].
  split; [reflexivity|]. split.
  - unfold or_value at 1. intros ->. reflexivity.
  - intros Hnone. unfold doc_for. rewrite Hnone. split; reflexivity.
Qed.

(** ** extractDocumentation *)

Lemma assign_app (d : Documentation) (l1 l2 : list (string * value)) :
  assign d (l1 ++ l2) = assign (assign d l1) l2.
Proof. unfold assign. apply fold_left_app. Qed.

Lemma assign_cons (d : Documentation) (key : string) (v : value)
    (entries : list (string * value)) :
  assign d ((key, v) :: entries) = assign (set_property d key v) entries.
Proof. reflexivity. Qed.

(** An assignment leaves the properties of other names as they are,
    whatever its own name. *)
Lemma set_property_own_ne (d : Documentation) (k key : string) (v : value) :
  k ≠ key → own (set_property d k v) !! key = own d !! key.
Proof.
  intros Hne. unfold set_property.
  destruct (String.eqb k "__proto__" && reaches_accessor d).
  - destruct v; reflexivity.
  - simpl. apply lookup_insert_ne. exact Hne.
Qed.

(** Under any name but [__proto__] an assignment stores its value. *)
Lemma set_property_own_eq (d : Documentation) (key : string) (v : value) :
  key ≠ "__proto__" → own (set_property d key v) !! key = Some v.
Proof.
  intros Hne. unfold set_property.
  destruct (String.eqb_spec key "__proto__") as [Heq|_]; [contradiction|].
  simpl. apply lookup_insert_eq.
Qed.

Lemma assign_lookup_other (d : Documentation) (entries : list (string * value))
    (key : string) :
  ¬ In key (map fst entries) → own (assign d entries) !! key = own d !! key.
Proof.
  revert d. induction entries as [|[k v] entries IH]; intros d Hnotin; [reflexivity|].
  simpl in Hnotin. rewrite assign_cons, IH by tauto.
  apply set_property_own_ne. tauto.
Qed.

Lemma assign_lookup_In (d : Documentation) (entries : list (string * value))
    (key : string) (v : value) :
  key ≠ "__proto__" →
  List.NoDup (map fst entries) → In (key, v) entries →
  own (assign d entries) !! key = Some v.
Proof.
  intros Hkey. revert d.
  induction entries as [|[k0 v0] entries IH]; intros d Hnodup Hin; [destruct Hin|].
  simpl in Hnodup. apply List.NoDup_cons_iff in Hnodup. destruct Hnodup as [Hk0 Hnodup].
  rewrite assign_cons. destruct Hin as [Heq|Hin].
  - injection Heq as -> ->.
    rewrite (assign_lookup_other _ entries key Hk0).
    apply set_property_own_eq, Hkey.
  - apply IH; assumption.
Qed.

(** A property [documentation] has of its own is the one read. *)
Lemma readable_own (d : Documentation) (key : string) (v : value) :
  own d !! key = Some v → readable d !! key = Some v.
Proof. intros H. unfold readable. apply lookup_union_Some_l, H. Qed.

Lemma lookup_field_In (fields : list (string * value)) (key : string) (v : value) :
  List.NoDup (map fst fields) → In (key, v) fields → lookup_field fields key = v.
Proof.
  induction fields as [|[k0 v0] fields IH]; intros Hnodup Hin; [destruct Hin|].
  simpl in *. apply List.NoDup_cons_iff in Hnodup. destruct Hnodup as [Hk0 Hnodup].
  destruct Hin as [Heq|Hin].
  - injection Heq as -> ->. rewrite String.eqb_refl. reflexivity.
  - destruct (String.eqb_spec k0 key) as [->|_]; [|auto].
    exfalso. apply Hk0. apply in_map_iff. exists (key, v). auto.
Qed.

Lemma assign_keys_run (data : value) (keys : list string) (d : Documentation) :
  nullish data = false →
  assign_keys data keys d = Ok (assign d (map (fun key => (key, field data key)) keys)).
Proof.
  intros Hdata. revert d. induction keys as [|key keys IH]; intros d; [reflexivity|].
  simpl. rewrite (get_field data) by assumption. rewrite bind_Ok, IH. reflexivity.
Qed.

Lemma read_doc_file_run (env : Env) (d : Documentation) (file : string) (w : World) :
  read_doc_file env d file w =
  (after w (doc_warning env file), Ok (assign d (doc_entries env file))).
Proof.
  unfold read_doc_file, try_catch, doc_warning, doc_entries.
  rewrite run_bind, lift_run.
  destruct (read_yaml env file) as [data|e]; [|reflexivity].
  destruct (truthy data && typeof_object data) eqn:Hobj.
  - rewrite lift_run, assign_keys_run, after_nil; [reflexivity|].
    destruct data; try discriminate; reflexivity.
  - rewrite after_nil. reflexivity.
Qed.

Lemma read_doc_files_run (env : Env) (files : list string) (d : Documentation)
    (w : World) :
  for_each (read_doc_file env) files d w =
  (after w (flat_map (doc_warning env) files),
   Ok (assign d (flat_map (doc_entries env) files))).
Proof.
  revert d w. induction files as [|file files IH]; intros d w; simpl.
  - rewrite after_nil. reflexivity.
  - rewrite run_bind, read_doc_file_run, IH, after_after, assign_app. reflexivity.
Qed.

Lemma extractDocumentation_run (env : Env) (files : list string) (w : World) :
  exists_sync env docsDir = true →
  yaml_files_under env docsDir = Ok files →
  extractDocumentation env w =
  (after w (flat_map (doc_warning env) files),
   Ok (readable (assign empty_documentation (flat_map (doc_entries env) files)))).
Proof.
  intros Hexists Hfiles. unfold extractDocumentation.
  rewrite Hexists, run_bind, lift_run, Hfiles, run_bind, read_doc_files_run.
  reflexivity.
Qed.

Lemma doc_entries_keys (env : Env) (file : string) (key : string) :
  In key (map fst (doc_entries env file)) →
  ∃ data, read_yaml env file = Ok data ∧ In key (object_keys data).
Proof.
  unfold doc_entries. destruct (read_yaml env file) as [data|e]; [|intros []].
  destruct (truthy data && typeof_object data); [|intros []].
  rewrite map_map, map_id. eauto.
Qed.

(** X6.  In the documentation, the last file wins.  If a documentation
    file is an object with distinct keys that holds [value] under a
    [key] other than [__proto__], and no later file has that key, then
    [documentation[key]] is [value] in what [extractDocumentation]
    returns, whatever earlier files said (the prototype they may have
    installed included) and however many files failed to load, each of
    which adds a warning and nothing else.  The key [__proto__] is the
    exception: an assignment to it stores nothing under that name as
    long as it reaches the accessor of [Object.prototype]. *)
Theorem documentation_last_file_wins (env : Env) (w : World)
    (before rest : list string) (file key : string)
    (fields : list (string * value)) (v : value) :
  exists_sync env docsDir = true →
  yaml_files_under env docsDir = Ok (before ++ file :: rest) →
  read_yaml env file = Ok (VObj fields) →
  List.NoDup (map fst fields) →
  In (key, v) fields →
  key ≠ "__proto__" →
  (∀ later data, In later rest → read_yaml env later = Ok data →
                 ¬ In key (object_keys data)) →
  ∃ documentation,
    extractDocumentation env w =
      (after w (flat_map (doc_warning env) (before ++ file :: rest)), Ok documentation) ∧
    documentation !! key = Some v.
Proof.
  intros Hexists Hfiles Hread Hnodup Hin Hkey Hlater.
  eexists. split; [apply extractDocumentation_run; assumption|].
  apply readable_own.
  rewrite flat_map_app. simpl. rewrite !assign_app.
  rewrite assign_lookup_other.
  - apply assign_lookup_In; [exact Hkey| |]; unfold doc_entries; rewrite Hread; simpl.
    + rewrite map_map. simpl. rewrite map_id. exact Hnodup.
    + apply in_map_iff. exists key. split.
      * unfold field. simpl.
        rewrite (lookup_field_In fields key v Hnodup Hin). reflexivity.
      * apply in_map_iff. exists (key, v). auto.
  - intros Hk. apply in_map_iff in Hk. destruct Hk as ([k x] & Hk & Hkx).
    simpl in Hk. subst k. apply in_flat_map in Hkx.
    destruct Hkx as (later & Hrest & Hentry).
    assert (Hk : In key (map fst (doc_entries env later)))
      by (apply in_map_iff; exists (key, x); auto).
    apply doc_entries_keys in Hk. destruct Hk as (data & Hdata & Hkeys).
    exact (Hlater later data Hrest Hdata Hkeys).
Qed.

Lemma documentation_last_file_wins_witness :
  ∃ documentation,
    extractDocumentation env_docs world0 =
      (after world0 [DocWarning "broken.yml" (Failure "bad indentation")],
       Ok documentation) ∧
    documentation !! "patient" = Some (VObj [("description", VStr "new text")]).
Proof.
  apply (documentation_last_file_wins env_docs world0 ["old.yml"; "broken.yml"] []
           "new.yml" "patient"
           [("patient", VObj [("description", VStr "new text")])]).
  - reflexivity.
  - reflexivity.
  - reflexivity.
  - repeat constructor. intros [].
  - left. reflexivity.
  - discriminate.
  - intros later data [].
Defined.

Lemma list_to_map_In (fields : list (string * value)) (key : string) (v : value) :
  List.NoDup (map fst fields) → In (key, v) fields →
  (list_to_map fields : gmap string value) !! key = Some v.
Proof.
  induction fields as [|[k0 v0] fields IH]; intros Hnodup Hin; [destruct Hin|].
  simpl in Hnodup. apply List.NoDup_cons_iff in Hnodup. destruct Hnodup as [Hk0 Hnodup].
  simpl. destruct Hin as [Heq|Hin].
  - injection Heq as -> ->. apply lookup_insert_eq.
  - rewrite lookup_insert_ne; [auto|].
    intros ->. apply Hk0. apply in_map_iff. exists (key, v). auto.
Qed.

(** X19.  An assignment to the key [__proto__] goes to the accessor of
    the object literal.  For a documentation file whose only key it is:
    with an object of distinct keys as its value, that object becomes
    the prototype, and each of its keys is read as a documentation
    entry; with an array, [length] reads as the length of the array;
    with [null] or a scalar nothing is stored, and the dictionary the
    merge reads stays empty.  No warning is logged. *)
Theorem proto_key_installs_a_prototype (env : Env) (w : World) (file : string)
    (v : value) :
  exists_sync env docsDir = true →
  yaml_files_under env docsDir = Ok [file] →
  read_yaml env file = Ok (VObj [("__proto__", v)]) →
  ∃ documentation,
    extractDocumentation env w = (w, Ok documentation) ∧
    match v with
    | VObj inner =>
        ∀ key x, List.NoDup (map fst inner) → In (key, x) inner →
                 documentation !! key = Some x
    | VArr items =>
        documentation !! "length" = Some (VNum (NInt (Z.of_nat (length items))))
    | _ => documentation = ∅
    end.
Proof.
  intros Hexists Hfiles Hread.
  eexists. split.
  - rewrite (extractDocumentation_run env [file] w Hexists Hfiles). simpl.
    unfold doc_warning. rewrite Hread, after_nil. reflexivity.
  - simpl. unfold doc_entries. rewrite Hread. simpl.
    unfold assign, set_property, readable. simpl.
    assert (Hreach : reaches_accessor empty_documentation = true) by reflexivity.
    rewrite Hreach.
    destruct v as [| |b|n|s|items|inner]; simpl;
      try (apply (left_id_L (∅ : gmap string value) (∪))).
    + rewrite (left_id_L (∅ : gmap string value) (∪)).
      apply lookup_union_Some_l. rewrite lookup_insert_eq. reflexivity.
    + intros key x Hnodup Hin.
      rewrite (left_id_L (∅ : gmap string value) (∪)).
      apply lookup_union_Some_l, list_to_map_In; assumption.
Qed.

Lemma proto_key_installs_a_prototype_witness :
  ∃ documentation,
    extractDocumentation env_proto world0 = (world0, Ok documentation) ∧
    documentation !! "patient" = Some (VObj [("description", VStr "inherited text")]).
Proof.
  destruct (proto_key_installs_a_prototype env_proto world0 "proto.yml"
              (VObj [("patient", VObj [("description", VStr "inherited text")])])
              eq_refl eq_refl eq_refl) as (documentation & Hrun & Hread).
  exists documentation. split; [exact Hrun|].
  apply Hread; [repeat constructor; intros [] | left; reflexivity].
Defined.

Lemma merge_precedence_witness :
  ∃ entry,
    enrich {["patient" := VObj [("description", VStr "from the docs")]]}
      (mkTable (VStr "patient") (VStr "") [] VUndefined) = Ok entry ∧
    description entry = VStr "from the docs".
Proof.
  destruct (merge_precedence {["patient" := VObj [("description", VStr "from the docs")]]}
              (mkTable (VStr "patient") (VStr "") [] VUndefined) "patient" eq_refl)
    as (entry & Henrich & _ & _ & Hdescription & _).
  exists entry. split; [exact Henrich|]. rewrite Hdescription. reflexivity.
Defined.

(** ** What a computation leaves in the trace *)

Lemma logs_ret (P : Event -> bool) {A} (a : A) : logs P (mret a : M A).
Proof. intros w. exists []. rewrite after_nil. split; reflexivity. Qed.

Lemma logs_throw (P : Event -> bool) {A} (e : error) : logs P (throw e : M A).
Proof. intros w. exists []. rewrite after_nil. split; reflexivity. Qed.

Lemma logs_lift (P : Event -> bool) {A} (r : result A) : logs P (lift r).
Proof. intros w. exists []. rewrite after_nil. split; reflexivity. Qed.

Lemma logs_emit (P : Event -> bool) (ev : Event) : P ev = true → logs P (emit ev).
Proof. intros H w. exists [ev]. simpl. rewrite H. split; reflexivity. Qed.

Lemma logs_bind (P : Event -> bool) {A B} (m : M A) (k : A -> M B) :
  logs P m → (∀ a, logs P (k a)) → logs P (x ← m; k x).
Proof.
  intros Hm Hk w. rewrite run_bind. destruct (Hm w) as (new & Hw & Hnew).
  destruct (m w) as [w1 [a|e]]; simpl in Hw; subst w1.
  - destruct (Hk a (after w new)) as (new' & Hw' & Hnew').
    exists (new ++ new'). rewrite Hw', after_after, forallb_app, Hnew, Hnew'.
    split; reflexivity.
  - exists new. split; [reflexivity | exact Hnew].
Qed.

Lemma logs_try_catch (P : Event -> bool) {A} (m : M A) (h : error -> M A) :
  logs P m → (∀ e, logs P (h e)) → logs P (try_catch m h).
Proof.
  intros Hm Hh w. unfold try_catch. destruct (Hm w) as (new & Hw & Hnew).
  destruct (m w) as [w1 [a|e]]; simpl in Hw; subst w1.
  - exists new. split; [reflexivity | exact Hnew].
  - destruct (Hh e (after w new)) as (new' & Hw' & Hnew').
    exists (new ++ new'). rewrite Hw', after_after, forallb_app, Hnew, Hnew'.
    split; reflexivity.
Qed.

Lemma logs_for_each (P : Event -> bool) {A S} (body : S -> A -> M S) (l : list A) :
  (∀ acc x, logs P (body acc x)) → ∀ acc, logs P (for_each body l acc).
Proof.
  intros Hbody. induction l as [|x l IH]; intros acc; simpl.
  - apply logs_ret.
  - apply logs_bind; [apply Hbody | apply IH].
Qed.

Lemma cloneTuvaRepo_logs (env : Env) : logs parser_event (cloneTuvaRepo env).
Proof.
  unfold cloneTuvaRepo. destruct (exists_sync env REPO_DIR);
    (apply logs_bind; [apply logs_emit; reflexivity | intros; apply logs_lift]).
Qed.

Lemma parse_files_logs (env : Env) (files : list string) :
  logs parser_event (parse_files env files).
Proof.
  unfold parse_files. apply logs_for_each. intros acc file.
  apply logs_bind; [|intros; apply logs_ret].
  unfold parseYamlFile. apply logs_try_catch.
  - apply logs_bind; [apply logs_lift | intros; apply logs_lift].
  - intros e. apply logs_bind; [apply logs_emit; reflexivity | intros; apply logs_ret].
Qed.

Lemma extractDocumentation_logs (env : Env) :
  logs parser_event (extractDocumentation env).
Proof.
  unfold extractDocumentation. destruct (exists_sync env docsDir); [|apply logs_ret].
  apply logs_bind; [apply logs_lift|]. intros files.
  apply logs_bind; [|intros; apply logs_ret]. apply logs_for_each.
  intros d file. unfold read_doc_file. apply logs_try_catch.
  - apply logs_bind; [apply logs_lift|]. intros data.
    destruct (truthy data && typeof_object data); [apply logs_lift | apply logs_ret].
  - intros e. apply logs_bind; [apply logs_emit; reflexivity | intros; apply logs_ret].
Qed.

Lemma parseTuvaSchema_logs (env : Env) : logs parser_event (parseTuvaSchema env).
Proof.
  unfold parseTuvaSchema. apply logs_try_catch.
  - apply logs_bind; [apply cloneTuvaRepo_logs|]. intros _.
    destruct (negb (exists_sync env modelsDir)).
    + apply logs_bind; [apply logs_emit; reflexivity|]. intros _.
      apply logs_bind; [apply logs_lift|]. intros items.
      apply logs_bind; [apply logs_emit; reflexivity | intros; apply logs_ret].
    + apply logs_bind; [apply logs_lift|]. intros files.
      apply logs_bind; [apply parse_files_logs|]. intros allSchemas.
      apply logs_bind; [apply extractDocumentation_logs|]. intros documentation.
      apply logs_bind; [apply logs_lift|]. intros enriched.
      apply logs_bind; [apply logs_emit; reflexivity|]. intros _.
      apply logs_bind; [apply logs_lift | intros; apply logs_ret].
  - intros e. apply logs_bind; [apply logs_emit; reflexivity | intros; apply logs_throw].
Qed.

(** ** parseTuvaSchema: what stops it and what does not *)

Lemma extractDocumentation_total (env : Env) (w : World) :
  (exists_sync env docsDir = false ∨ ∃ files, yaml_files_under env docsDir = Ok files) →
  ∃ new documentation, extractDocumentation env w = (after w new, Ok documentation).
Proof.
  intros Hdocs. destruct (exists_sync env docsDir) eqn:Hexists.
  - destruct Hdocs as [Hno|[files Hfiles]]; [discriminate|].
    rewrite (extractDocumentation_run env files w Hexists Hfiles). eauto.
  - unfold extractDocumentation. rewrite Hexists. exists [], ∅.
    rewrite after_nil. reflexivity.
Qed.

Lemma enrich_all_named (documentation : gmap string value) (schemas : list TableSchema) :
  forallb string_named schemas = true →
  ∃ catalog, rmap (enrich documentation) schemas = Ok catalog ∧
             length catalog = length schemas.
Proof.
  induction schemas as [|schema schemas IH]; simpl; intros H.
  - exists []. split; reflexivity.
  - apply andb_prop in H. destruct H as [Hname Hrest].
    unfold string_named in Hname.
    destruct (table_name schema) as [| | | |name| |] eqn:Hn; try discriminate.
    rewrite (enrich_named documentation schema name Hn), bind_Ok.
    destruct (IH Hrest) as (catalog & -> & Hlen). rewrite bind_Ok.
    eexists. split; [reflexivity|]. simpl. rewrite Hlen. reflexivity.
Qed.

(** X7.  Source and documentation files that cannot be loaded or read
    never stop [parseTuvaSchema]: if git, the two directory listings and
    the final write succeed and the tables are named by strings, it
    returns a catalog with one entry per record of the files that could
    be read, and what it wrote to the catalog file is that catalog. *)
Theorem parse_survives_unreadable_files (env : Env) (w : World) (files : list string) :
  clone_outcome env = Ok tt →
  exists_sync env modelsDir = true →
  yaml_files_under env modelsDir = Ok files →
  (exists_sync env docsDir = false ∨ ∃ docs, yaml_files_under env docsDir = Ok docs) →
  (∀ catalog, write_file env OUTPUT_FILE catalog = Ok tt) →
  forallb string_named (flat_map (file_records env) files) = true →
  ∃ w' catalog pre,
    parseTuvaSchema env w = (w', Ok (Some catalog)) ∧
    length catalog = length (flat_map (file_records env) files) ∧
    trace w' = trace w ++ pre ++ [WriteOutput OUTPUT_FILE catalog].
Proof.
  intros Hclone Hmodels Hfiles Hdocs Hwrite Hnames.
  unfold parseTuvaSchema, try_catch.
  rewrite run_bind, cloneTuvaRepo_run, Hclone, Hmodels. cbn [negb].
  rewrite run_bind, lift_run, Hfiles, run_bind, parse_files_run, run_bind.
  match goal with
  | |- context [extractDocumentation env ?w0] =>
      destruct (extractDocumentation_total env w0 Hdocs) as (new & documentation & Hdoc);
        rewrite Hdoc
  end.
  destruct (enrich_all_named documentation _ Hnames) as (catalog & Hcatalog & Hlen).
  rewrite run_bind, lift_run, Hcatalog, run_bind, emit_run, run_bind, lift_run, Hwrite.
  eexists _, catalog, (clone_event env :: flat_map (file_warning env) files ++ new).
  split; [reflexivity|]. split; [exact Hlen|].
  simpl. rewrite <- !app_assoc. reflexivity.
Qed.

Lemma parse_survives_unreadable_files_witness :
  ∃ w' catalog pre,
    parseTuvaSchema env_bad_file world0 = (w', Ok (Some catalog)) ∧
    length catalog = length (flat_map (file_records env_bad_file)
                               ["a.yml"; "bad.yml"; "c.yml"]) ∧
    trace w' = trace world0 ++ pre ++ [WriteOutput OUTPUT_FILE catalog].
Proof.
  apply (parse_survives_unreadable_files env_bad_file world0 ["a.yml"; "bad.yml"; "c.yml"]).
  - reflexivity.
  - reflexivity.
  - reflexivity.
  - right. exists []. reflexivity.
  - intros catalog. reflexivity.
  - reflexivity.
Defined.

(** X8.  Whenever [parseTuvaSchema] returns a catalog, the last thing
    it did was to write that very catalog to the catalog file; before
    that it only talked to git and logged warnings, and it wrote
    nothing else. *)
Theorem returned_catalog_is_the_written_one (env : Env) (w w' : World)
    (catalog : list TableSchema) :
  parseTuvaSchema env w = (w', Ok (Some catalog)) →
  ∃ pre, trace w' = trace w ++ pre ++ [WriteOutput OUTPUT_FILE catalog] ∧
         forallb (fun ev => match ev with
                            | GitPull | GitClone | ParseWarning _ _ | DocWarning _ _ => true
                            | _ => false
                            end) pre = true.
Proof.
  unfold parseTuvaSchema. intros H.
  apply try_catch_rethrow_Ok_inv in H; [|intros; apply parser_handler_throws].
  apply run_bind_Ok_inv in H. destruct H as ([] & w1 & Hclone & H).
  rewrite cloneTuvaRepo_run in Hclone. injection Hclone as <- _.
  destruct (negb (exists_sync env modelsDir)).
  - apply run_bind_Ok_inv in H. destruct H as ([] & w2 & _ & H).
    apply run_bind_Ok_inv in H. destruct H as (items & w3 & _ & H).
    apply run_bind_Ok_inv in H. destruct H as ([] & w4 & _ & H).
    discriminate.
  - apply run_bind_Ok_inv in H. destruct H as (files & w2 & Hfiles & H).
    rewrite lift_run in Hfiles. injection Hfiles as <- _.
    apply run_bind_Ok_inv in H. destruct H as (allSchemas & w3 & Hall & H).
    rewrite parse_files_run in Hall. injection Hall as <- _.
    apply run_bind_Ok_inv in H. destruct H as (documentation & w4 & Hdoc & H).
    unfold extractDocumentation in Hdoc.
    assert (Hw4 : ∃ docs, w4 = after (after (after w [clone_event env])
                                         (flat_map (file_warning env) files))
                                  (flat_map (doc_warning env) docs)).
    { destruct (exists_sync env docsDir).
      - apply run_bind_Ok_inv in Hdoc. destruct Hdoc as (docs & w5 & Hdocs & Hdoc).
        rewrite lift_run in Hdocs. injection Hdocs as <- _.
        apply run_bind_Ok_inv in Hdoc. destruct Hdoc as (d & w6 & Hread & Hdoc).
        rewrite read_doc_files_run in Hread. injection Hread as <- _.
        injection Hdoc as <- _. eauto.
      - injection Hdoc as <- _. exists []. rewrite after_nil. reflexivity. }
    destruct Hw4 as (docs & ->).
    apply run_bind_Ok_inv in H. destruct H as (enriched & w5 & Henrich & H).
    rewrite lift_run in Henrich. injection Henrich as <- _.
    apply run_bind_Ok_inv in H. destruct H as ([] & w6 & Hemit & H).
    rewrite emit_run in Hemit. injection Hemit as <-.
    apply run_bind_Ok_inv in H. destruct H as ([] & w7 & Hwrite & H).
    rewrite lift_run in Hwrite. injection Hwrite as <- _.
    injection H as <- <-.
    exists (clone_event env :: flat_map (file_warning env) files
              ++ flat_map (doc_warning env) docs).
    split; [simpl; rewrite <- !app_assoc; reflexivity|].
    simpl. rewrite forallb_app. apply andb_true_intro. split.
    { unfold clone_event. destruct (exists_sync env REPO_DIR); reflexivity. }
    apply andb_true_intro. split.
    + clear. induction files as [|file files IH]; [reflexivity|].
      simpl. rewrite forallb_app, IH. unfold file_warning.
      destruct (file_outcome env file); reflexivity.
    + clear. induction docs as [|file docs IH]; [reflexivity|].
      simpl. rewrite forallb_app, IH. unfold doc_warning.
      destruct (read_yaml env file); reflexivity.
Qed.

Lemma returned_catalog_is_the_written_one_witness :
  ∃ w' catalog,
    parseTuvaSchema env_dup world0 = (w', Ok (Some catalog)) ∧
    ∃ pre, trace w' = trace world0 ++ pre ++ [WriteOutput OUTPUT_FILE catalog] ∧
           forallb (fun ev => match ev with
                              | GitPull | GitClone | ParseWarning _ _ | DocWarning _ _ => true
                              | _ => false
                              end) pre = true.
Proof.
  do 2 eexists. split; [vm_compute; reflexivity|].
  eapply (returned_catalog_is_the_written_one env_dup world0). vm_compute. reflexivity.
Defined.

(** ** initializeIndex: every outcome *)

Lemma initializeIndex_run (env : Env) (w : World) :
  initializeIndex env w =
  match listIndexes_fault env with
  | Some e => (after w [ListIndexes; IndexError e], Throw e)
  | None =>
      if in_store w PINECONE_INDEX_NAME then (after w [ListIndexes], Ok PINECONE_INDEX_NAME)
      else
        match createIndex_fault env with
        | Some e => (after w [ListIndexes; CreateIndex index_options; IndexError e], Throw e)
        | None =>
            (mkWorld (trace w ++ [ListIndexes; CreateIndex index_options; Sleep 10000])
               (map (elapse 10000)
                  (store w ++ [mkIndex PINECONE_INDEX_NAME EMBEDDING_DIMENSIONS "cosine"
                                 (Z.max 0 (provisioning_ms env))])),
             Ok PINECONE_INDEX_NAME)
        end
  end.
Proof.
  unfold initializeIndex, try_catch, listIndexes.
  rewrite run_bind, run_bind, emit_run.
  destruct (listIndexes_fault env) as [e|]; simpl.
  { rewrite run_bind, emit_run, after_after. reflexivity. }
  change (indexExists (mkIndexList (Some (store w))))
    with (in_store w PINECONE_INDEX_NAME).
  destruct (in_store w PINECONE_INDEX_NAME); [reflexivity|].
  rewrite run_bind. unfold createIndex. rewrite run_bind, emit_run.
  destruct (createIndex_fault env) as [e|]; simpl.
  { rewrite run_bind, emit_run. unfold after. simpl. rewrite <- !app_assoc. reflexivity. }
  unfold after. simpl. rewrite <- !app_assoc. reflexivity.
Qed.

Lemma in_store_elapsed (ms : Z) (l : list IndexModel) (name : string) :
  existsb (fun i => String.eqb (idx_name i) name) (map (elapse ms) l) =
  existsb (fun i => String.eqb (idx_name i) name) l.
Proof. induction l as [|i l IH]; simpl; [reflexivity|]. rewrite IH. reflexivity. Qed.

(** X9.  [initializeIndex] can be run again: after a run that
    returned, a second run finds the index in the list and does nothing
    but ask for that list; it creates nothing and does not pause. *)
Theorem initializeIndex_again_only_lists (env : Env) (w w1 : World) (h : string) :
  initializeIndex env w = (w1, Ok h) →
  initializeIndex env w1 = (after w1 [ListIndexes], Ok PINECONE_INDEX_NAME).
Proof.
  rewrite (initializeIndex_run env w), (initializeIndex_run env w1).
  destruct (listIndexes_fault env); [discriminate|].
  destruct (in_store w PINECONE_INDEX_NAME) eqn:Hin.
  - intros H. injection H as <- _. unfold in_store in *. simpl. rewrite Hin. reflexivity.
  - destruct (createIndex_fault env); [discriminate|].
    intros H. injection H as <- _. unfold in_store. simpl.
    rewrite in_store_elapsed, existsb_app. simpl. rewrite orb_true_r. reflexivity.
Qed.

Lemma initializeIndex_again_only_lists_witness :
  ∃ w1, initializeIndex env_slow world0 = (w1, Ok PINECONE_INDEX_NAME) ∧
        initializeIndex env_slow w1 = (after w1 [ListIndexes], Ok PINECONE_INDEX_NAME).
Proof.
  eexists. split; [vm_compute; reflexivity|].
  eapply (initializeIndex_again_only_lists env_slow world0). vm_compute. reflexivity.
Defined.

(** X10.  When [initializeIndex] raises, it raises the error of the
    store call that failed, after logging it: either the request for the
    list of indexes, or the creation of an index the list did not have.
    The store is as before and no pause was made. *)
Theorem initializeIndex_failure (env : Env) (w w' : World) (e : error) :
  initializeIndex env w = (w', Throw e) →
  store w' = store w ∧
  ((listIndexes_fault env = Some e ∧
    trace w' = trace w ++ [ListIndexes; IndexError e]) ∨
   (listIndexes_fault env = None ∧ in_store w PINECONE_INDEX_NAME = false ∧
    createIndex_fault env = Some e ∧
    trace w' = trace w ++ [ListIndexes; CreateIndex index_options; IndexError e])).
Proof.
  rewrite initializeIndex_run.
  destruct (listIndexes_fault env) as [e0|].
  - intros H. injection H as <- <-. split; [reflexivity|]. left. split; reflexivity.
  - destruct (in_store w PINECONE_INDEX_NAME); [discriminate|].
    destruct (createIndex_fault env) as [e0|]; [|discriminate].
    intros H. injection H as <- <-. split; [reflexivity|]. right.
    repeat split; reflexivity.
Qed.

Lemma initializeIndex_failure_witness :
  ∃ w', initializeIndex env_no_create world0 = (w', Throw (Failure "quota exceeded")) ∧
        store w' = store world0.
Proof.
  eexists. split; [vm_compute; reflexivity|].
  refine (proj1 (initializeIndex_failure env_no_create world0 _ (Failure "quota exceeded") _)).
  vm_compute. reflexivity.
Defined.

(** ** uploadToPinecone: how many writes and pauses *)

Lemma Partitioned_count (batches : list (list EmbeddingRecord))
    (tables : list TableSchema) :
  Partitioned batches tables → length batches = (length tables + 99) / 100.
Proof.
  induction 1 as [|b ts Hpos Hle _|b bs ts rest Hlen _ _ _ IH].
  - reflexivity.
  - unfold batchSize in Hle. change (length [b]) with 1.
    apply Nat.div_unique with (r := length ts - 1); lia.
  - change (length (b :: bs)) with (S (length bs)).
    rewrite length_app, IH, Hlen. unfold batchSize.
    replace (100 + length rest + 99) with (1 * 100 + (length rest + 99)) by lia.
    rewrite Nat.div_add_l by discriminate. reflexivity.
Qed.

Lemma separated_pauses (index : string) (batches : list (list EmbeddingRecord)) :
  length (List.filter is_pause
            (separated (Sleep 1000) (map (Upsert index) batches))) =
  length batches - 1.
Proof.
  induction batches as [|b [|b' bs] IH]; try reflexivity.
  change (S (length (List.filter is_pause
                       (separated (Sleep 1000) (map (Upsert index) (b' :: bs)))))
          = length (b :: b' :: bs) - 1).
  rewrite IH. simpl. lia.
Qed.

Lemma filter_pause_of_writes (l : list Event) :
  List.filter is_pause (List.filter write_or_pause l) = List.filter is_pause l.
Proof.
  induction l as [|ev l IH]; [reflexivity|]. simpl.
  destruct ev; simpl; rewrite ?IH; reflexivity.
Qed.

(** X11.  A run of [uploadToPinecone] that completes on a catalog of
    [n] tables has made [(n + 99) / 100] bulk writes, the number of
    batches of 100 that [n] tables fill, and one pause fewer (none for an
    empty catalog, which is not written at all). *)
Theorem upload_counts (env : Env) (index : string) (schemas : list TableSchema)
    (w w' : World) (v : value) :
  uploadToPinecone env index schemas w = (w', Ok v) →
  ∃ new, trace w' = trace w ++ new ∧
         length (bulk_writes new) = (length schemas + 99) / 100 ∧
         length (List.filter is_pause new) = (length schemas + 99) / 100 - 1.
Proof.
  intros H. apply uploadToPinecone_Ok_inv in H.
  destruct H as (_ & w1 & total & Hloop & ->).
  apply (upload_loop_Ok env index schemas (length schemas)) in Hloop; [|lia].
  destruct Hloop as [_ (new & batches & Htrace & Hwrites & Hfilter & Hpart)].
  rewrite drop_0 in Hpart. apply Partitioned_count in Hpart.
  exists (new ++ [AllUploaded total]). split; [|split].
  - simpl. rewrite Htrace, <- app_assoc. reflexivity.
  - rewrite bulk_writes_app, Hwrites. simpl. rewrite app_nil_r. exact Hpart.
  - rewrite List.filter_app. simpl. rewrite app_nil_r.
    rewrite <- filter_pause_of_writes, Hfilter, separated_pauses, Hpart. reflexivity.
Qed.

Lemma upload_counts_witness :
  ∃ w' v new,
    uploadToPinecone env_ready PINECONE_INDEX_NAME (sample_catalog 201) world0 = (w', Ok v) ∧
    trace w' = trace world0 ++ new ∧
    length (bulk_writes new) = 3 ∧
    length (List.filter is_pause new) = 2.
Proof.
  destruct (upload_counts env_ready PINECONE_INDEX_NAME (sample_catalog 201) world0
              (fst (uploadToPinecone env_ready PINECONE_INDEX_NAME (sample_catalog 201) world0))
              VUndefined) as (new & Htrace & Hwrites & Hpauses).
  - vm_compute. reflexivity.
  - eexists _, _, new. split; [vm_compute; reflexivity|].
    split; [exact Htrace|]. split; [exact Hwrites | exact Hpauses].
Defined.

(** ** uploadToPinecone: what is written *)

Lemma requested_app (l1 l2 : list Event) :
  requested (l1 ++ l2) = requested l1 ++ requested l2.
Proof. unfold requested. apply omap_app. Qed.

Lemma rmap_app {A B} (f : A -> result B) (l1 l2 : list A) (r1 r2 : list B) :
  rmap f l1 = Ok r1 → rmap f l2 = Ok r2 → rmap f (l1 ++ l2) = Ok (r1 ++ r2).
Proof.
  revert r1. induction l1 as [|x l1 IH]; simpl; intros r1 H1 H2.
  - injection H1 as <-. exact H2.
  - bind_inv H1. bind_inv H1. injection H1 as <-.
    rewrite Ha, bind_Ok, (IH _ Ha0 H2), bind_Ok. reflexivity.
Qed.

Lemma vector_outcome_record (env : Env) (schema : TableSchema) (r : EmbeddingRecord) :
  vector_outcome env schema = Ok r →
  record_of env schema r ∧
  ∃ text, createSchemaText schema = Ok text ∧
          vector_events env schema = [EmbedRequest text].
Proof.
  unfold vector_outcome, vector_events. intros H. bind_inv H. bind_inv H.
  injection H as <-. rewrite Ha, Ha0. split; [|eauto].
  unfold embedding_outcome in Ha0. bind_inv Ha0. apply get_Ok_field in Ha0.
  destruct Ha0 as [-> _]. repeat split. eauto.
Qed.

Lemma batch_records (env : Env) (batch : list TableSchema)
    (vectors : list EmbeddingRecord) :
  all_settled (map (vector_outcome env) batch) = Ok vectors →
  Forall2 (record_of env) batch vectors ∧
  rmap createSchemaText batch = Ok (requested (flat_map (vector_events env) batch)).
Proof.
  revert vectors. induction batch as [|schema batch IH]; simpl; intros vectors H.
  - injection H as <-. split; [constructor | reflexivity].
  - destruct (vector_outcome env schema) as [r|e] eqn:Hr; [|discriminate].
    bind_inv H. injection H as <-.
    apply vector_outcome_record in Hr. destruct Hr as (Hrecord & text & Htext & Hevents).
    destruct (IH _ Ha) as [Hrecords Htexts].
    split; [constructor; assumption|].
    rewrite Htext, bind_Ok, Htexts, bind_Ok, Hevents. reflexivity.
Qed.

Lemma upload_loop_records (env : Env) (index : string) (schemas : list TableSchema)
    (n : nat) :
  ∀ (i uploaded : nat) (w w' : World) (total : nat),
    length schemas - i ≤ n →
    upload_loop env index schemas i uploaded w = (w', Ok total) →
    ∃ new, trace w' = trace w ++ new ∧
           Forall2 (record_of env) (drop i schemas) (upserted new) ∧
           rmap createSchemaText (drop i schemas) = Ok (requested new).
Proof.
  induction n as [|n IH]; intros i uploaded w w' total Hn Hrun;
    rewrite upload_loop_step in Hrun;
    destruct (decide (i < length schemas)) as [Hi|Hi]; try lia.
  1, 3: (injection Hrun as <- <-; rewrite drop_ge by lia;
         exists []; rewrite app_nil_r; repeat split; constructor).
  pose proof (upload_batch_run env index schemas i uploaded w) as Hbatch.
  cbv zeta in Hbatch. rewrite Hbatch in Hrun. clear Hbatch.
  assert (Hsplit : drop i schemas =
                   take batchSize (drop i schemas) ++ drop (i + batchSize) schemas).
  { rewrite <- (drop_drop schemas batchSize i). symmetry. apply take_drop. }
  set (batch := take batchSize (drop i schemas)) in *.
  destruct (vector_events_quiet env batch) as [_ Hnowrite].
  set (quiet := flat_map (vector_events env) batch) in *.
  destruct (all_settled (map (vector_outcome env) batch)) as [vectors|e] eqn:Hall;
    [|discriminate].
  apply batch_records in Hall. destruct Hall as [Hrecords Htexts]. fold quiet in Htexts.
  destruct (upsert_fault env vectors); [discriminate|].
  set (pause := if decide (i + batchSize < length schemas) then [Sleep 1000] else []).
  match type of Hrun with
  | upload_loop _ _ _ _ _ ?wB = _ =>
      assert (HwB : trace wB = trace w ++ quiet ++
                      [Upsert index vectors;
                       Uploaded (uploaded + length batch) (length schemas)] ++ pause)
  end.
  { unfold pause. destruct (decide (i + batchSize < length schemas));
      [rewrite sleep_trace|]; unfold after; simpl; rewrite <- ?app_assoc;
      rewrite ?app_nil_r; reflexivity. }
  apply IH in Hrun; [|unfold batchSize in *; lia].
  destruct Hrun as (new & Htrace & Hnew & Hreq).
  exists (quiet ++ [Upsert index vectors;
                    Uploaded (uploaded + length batch) (length schemas)] ++ pause ++ new).
  assert (Hpause : upserted pause = [] ∧ requested pause = [])
    by (unfold pause; destruct (decide (i + batchSize < length schemas)); split; reflexivity).
  destruct Hpause as [Hp1 Hp2].
  split; [|split].
  - rewrite Htrace, HwB, <- !app_assoc. reflexivity.
  - rewrite Hsplit, !upserted_app, upserted_write_logged, Hp1.
    unfold upserted at 1. rewrite Hnowrite. simpl.
    apply Forall2_app; assumption.
  - rewrite Hsplit, !requested_app, Hp2. simpl.
    apply rmap_app; assumption.
Qed.

(** X12.  In a run of [uploadToPinecone] that completes, the embedding
    service was asked once per table, in catalog order, with the text
    [createSchemaText] gives for the table; and the records written are,
    table by table, the table's name as id and in the metadata, its
    description (or the empty string), its columns and itself in JSON, and
    as vector the [embedding] property of what the service answered to
    that text, whatever it is. *)
Theorem upload_writes_the_embeddings (env : Env) (index : string)
    (schemas : list TableSchema) (w w' : World) (v : value) :
  uploadToPinecone env index schemas w = (w', Ok v) →
  ∃ new, trace w' = trace w ++ new ∧
         rmap createSchemaText schemas = Ok (requested new) ∧
         Forall2 (record_of env) schemas (upserted new).
Proof.
  intros H. apply uploadToPinecone_Ok_inv in H.
  destruct H as (_ & w1 & total & Hloop & ->).
  apply (upload_loop_records env index schemas (length schemas)) in Hloop; [|lia].
  destruct Hloop as (new & Htrace & Hrecords & Htexts). rewrite drop_0 in *.
  exists (new ++ [AllUploaded total]). split; [|split].
  - simpl. rewrite Htrace, <- app_assoc. reflexivity.
  - rewrite requested_app. simpl. rewrite app_nil_r. exact Htexts.
  - rewrite upserted_app. unfold upserted at 2. simpl. rewrite app_nil_r. exact Hrecords.
Qed.

Lemma upload_writes_the_embeddings_witness :
  ∃ w' v new,
    uploadToPinecone env_ready PINECONE_INDEX_NAME (sample_catalog 3) world0 = (w', Ok v) ∧
    trace w' = trace world0 ++ new ∧
    rmap createSchemaText (sample_catalog 3) = Ok (requested new) ∧
    Forall2 (record_of env_ready) (sample_catalog 3) (upserted new).
Proof.
  destruct (upload_writes_the_embeddings env_ready PINECONE_INDEX_NAME (sample_catalog 3)
              world0
              (fst (uploadToPinecone env_ready PINECONE_INDEX_NAME (sample_catalog 3) world0))
              VUndefined) as (new & Htrace & Htexts & Hrecords).
  - vm_compute. reflexivity.
  - eexists _, _, new. split; [vm_compute; reflexivity|].
    split; [exact Htrace|]. split; [exact Htexts | exact Hrecords].
Defined.

(** ** uploadToPinecone: a write that fails *)

Lemma vector_events_batch (env : Env) (batch : list TableSchema) :
  forallb batch_event (flat_map (vector_events env) batch) = true.
Proof.
  induction batch as [|schema batch IH]; simpl; [reflexivity|].
  rewrite forallb_app, IH, andb_true_r. unfold vector_events.
  destruct (createSchemaText schema) as [text|e]; [|reflexivity].
  destruct (embedding_outcome env text); reflexivity.
Qed.

(** The events of the loop are those of its batches; a write the store
    rejects is the last of them. *)
Lemma upload_loop_writes (env : Env) (index : string) (schemas : list TableSchema)
    (n : nat) :
  ∀ (i uploaded : nat) (w : World),
    length schemas - i ≤ n →
    ∃ new,
      trace (fst (upload_loop env index schemas i uploaded w)) = trace w ++ new ∧
      forallb batch_event new = true ∧
      ∀ pre vectors post e,
        bulk_writes new = pre ++ vectors :: post →
        upsert_fault env vectors = Some e →
        post = [] ∧ snd (upload_loop env index schemas i uploaded w) = Throw e ∧
        ∃ before, new = before ++ [Upsert index vectors].
Proof.
  assert (Hnone : ∀ (pre : list (list EmbeddingRecord)) vectors post,
             [] = pre ++ vectors :: post → False)
    by (intros [|? ?] ? ? ?; discriminate).
  induction n as [|n IH]; intros i uploaded w Hn;
    rewrite upload_loop_step;
    destruct (decide (i < length schemas)) as [Hi|Hi]; try lia.
  1, 3: (exists []; rewrite app_nil_r; split; [reflexivity|]; split; [reflexivity|];
         intros pre vectors post e H; exfalso; exact (Hnone _ _ _ H)).
  pose proof (upload_batch_run env index schemas i uploaded w) as Hbatch.
  cbv zeta in Hbatch. rewrite Hbatch. clear Hbatch.
  set (batch := take batchSize (drop i schemas)) in *.
  destruct (vector_events_quiet env batch) as [_ Hnowrite].
  pose proof (vector_events_batch env batch) as Hquiet.
  set (quiet := flat_map (vector_events env) batch) in *.
  destruct (all_settled (map (vector_outcome env) batch)) as [vectors|e0].
  2: { exists quiet. split; [reflexivity|]. split; [exact Hquiet|]. rewrite Hnowrite.
       intros pre vs post e H. exfalso. exact (Hnone _ _ _ H). }
  destruct (upsert_fault env vectors) as [e0|] eqn:Hfault.
  { exists (quiet ++ [Upsert index vectors]). split; [|split].
    - simpl. rewrite <- app_assoc. reflexivity.
    - rewrite forallb_app, Hquiet. reflexivity.
    - rewrite bulk_writes_app, Hnowrite. simpl.
      intros [|p pre] vs post e H He.
      + injection H as <- <-. split; [reflexivity|]. split; [simpl; congruence|].
        exists quiet. reflexivity.
      + injection H as _ H. exfalso. exact (Hnone _ _ _ H). }
  set (pause := if decide (i + batchSize < length schemas) then [Sleep 1000] else []).
  match goal with
  | |- context [upload_loop env index schemas (i + batchSize) ?u ?wB] =>
      assert (HwB : trace wB = trace w ++ quiet ++
                      [Upsert index vectors;
                       Uploaded (uploaded + length batch) (length schemas)] ++ pause);
        [|destruct (IH (i + batchSize) u wB) as (new & Htrace & Hkind & Hnew);
          [unfold batchSize in *; lia|]]
  end.
  { unfold pause. destruct (decide (i + batchSize < length schemas));
      [rewrite sleep_trace|]; unfold after; simpl; rewrite <- ?app_assoc;
      rewrite ?app_nil_r; reflexivity. }
  assert (Hpause : forallb batch_event pause = true)
    by (unfold pause; destruct (decide (i + batchSize < length schemas)); reflexivity).
  exists (quiet ++ [Upsert index vectors;
                    Uploaded (uploaded + length batch) (length schemas)] ++ pause ++ new).
  split; [|split].
  - rewrite Htrace, HwB, <- !app_assoc. reflexivity.
  - rewrite !forallb_app, Hquiet, Hpause, Hkind. reflexivity.
  - rewrite !bulk_writes_app, Hnowrite.
    assert (Hp : bulk_writes pause = [])
      by (unfold pause; destruct (decide (i + batchSize < length schemas)); reflexivity).
    rewrite Hp. simpl.
    intros [|p pre] vs post e H He.
    + injection H as <- _. congruence.
    + injection H as _ H.
      destruct (Hnew _ _ _ _ H He) as (Hpost & Hr & before & Hbefore).
      split; [exact Hpost|]. split; [exact Hr|].
      exists (quiet ++ [Upsert index vectors;
                        Uploaded (uploaded + length batch) (length schemas)]
                ++ pause ++ before).
      rewrite Hbefore, <- !app_assoc. reflexivity.
Qed.

(** X13.  A bulk write that the store rejects ends the run of
    [uploadToPinecone].  The run raises the store's error, and the
    rejected write is the last event of the run: no embedding request,
    no write, no pause and no log line comes after it, so that later
    batches are neither embedded nor written and the write is not tried
    again.  Every write before it had been accepted. *)
Theorem rejected_write_aborts (env : Env) (index : string)
    (schemas : list TableSchema) (w w' : World) (r : result value)
    (new : list Event) (pre post : list (list EmbeddingRecord))
    (vectors : list EmbeddingRecord) (e : error) :
  uploadToPinecone env index schemas w = (w', r) →
  trace w' = trace w ++ new →
  bulk_writes new = pre ++ vectors :: post →
  upsert_fault env vectors = Some e →
  post = [] ∧ r = Throw e ∧
  (∃ before, new = before ++ [Upsert index vectors]) ∧
  Forall (fun earlier => upsert_fault env earlier = None) pre.
Proof.
  unfold uploadToPinecone. rewrite run_bind. intros Hrun Htrace Hwrites Hfault.
  destruct (upload_loop_writes env index schemas (length schemas) 0 0 w)
    as (new0 & Htrace0 & _ & Hnew0); [lia|].
  destruct (upload_loop env index schemas 0 0 w) as [w1 [total|e0]] eqn:Hloop;
    simpl in Htrace0, Hnew0.
  - rewrite run_bind, emit_run in Hrun. injection Hrun as <- <-.
    simpl in Htrace. rewrite Htrace0, <- app_assoc in Htrace.
    apply app_inv_head in Htrace. subst new.
    rewrite bulk_writes_app in Hwrites. simpl in Hwrites. rewrite app_nil_r in Hwrites.
    destruct (Hnew0 _ _ _ _ Hwrites Hfault) as (_ & Habs & _). discriminate.
  - injection Hrun as <- <-. rewrite Htrace0 in Htrace.
    apply app_inv_head in Htrace. subst new.
    destruct (Hnew0 _ _ _ _ Hwrites Hfault) as (-> & Heq & Hlast).
    split; [reflexivity|]. split; [congruence|]. split; [exact Hlast|].
    apply List.Forall_forall. intros earlier Hin.
    destruct (upsert_fault env earlier) as [e1|] eqn:Hearlier; [exfalso|reflexivity].
    apply in_split in Hin. destruct Hin as (p1 & p2 & ->).
    rewrite <- app_assoc in Hwrites. simpl in Hwrites.
    destruct (Hnew0 _ _ _ _ Hwrites Hearlier) as (Hnil & _).
    destruct p2; discriminate.
Qed.

Lemma rejected_write_aborts_witness :
  ∃ w' vectors before,
    uploadToPinecone env_no_write PINECONE_INDEX_NAME (sample_catalog 201) world0
      = (w', Throw (Failure "unavailable")) ∧
    bulk_writes (trace w') = [vectors] ∧
    length vectors = 100 ∧
    trace w' = before ++ [Upsert PINECONE_INDEX_NAME vectors].
Proof.
  pose (run := uploadToPinecone env_no_write PINECONE_INDEX_NAME (sample_catalog 201) world0).
  pose (vectors := hd [] (bulk_writes (trace (fst run)))).
  pose (post := tl (bulk_writes (trace (fst run)))).
  destruct (rejected_write_aborts env_no_write PINECONE_INDEX_NAME (sample_catalog 201)
              world0 (fst run) (snd run) (trace (fst run)) [] post vectors
              (Failure "unavailable")) as (Hpost & Hr & (before & Hlast) & _).
  - unfold run. destruct (uploadToPinecone _ _ _ _). reflexivity.
  - reflexivity.
  - vm_compute. reflexivity.
  - reflexivity.
  - exists (fst run), vectors, before. split; [|split; [|split]].
    + rewrite <- Hr. unfold run. destruct (uploadToPinecone _ _ _ _). reflexivity.
    + vm_compute. reflexivity.
    + vm_compute. reflexivity.
    + exact Hlast.
Defined.

(** ** setupTuva: the order of things *)

Lemma uploadToPinecone_events (env : Env) (index : string)
    (schemas : list TableSchema) (w : World) :
  ∃ uploading,
    trace (fst (uploadToPinecone env index schemas w)) = trace w ++ uploading ∧
    match snd (uploadToPinecone env index schemas w) with
    | Ok _ => ∃ batches n, uploading = batches ++ [AllUploaded n] ∧
                           forallb batch_event batches = true
    | Throw _ => forallb batch_event uploading = true
    end.
Proof.
  unfold uploadToPinecone. rewrite run_bind.
  destruct (upload_loop_writes env index schemas (length schemas) 0 0 w)
    as (new & Htrace & Hkind & _); [lia|].
  destruct (upload_loop env index schemas 0 0 w) as [w1 [total|e]]; simpl in Htrace.
  - rewrite run_bind, emit_run. exists (new ++ [AllUploaded total]). simpl.
    split; [rewrite Htrace, <- app_assoc; reflexivity | eauto].
  - exists new. simpl. split; assumption.
Qed.

(** X14.  [setupTuva] never raises, and its run is made of four parts
    in this order: what the parser logs, what [initializeIndex] asks of
    the store, what the batches of [uploadToPinecone] do, and the
    report of a failure.  Whatever goes wrong is reported and answered
    with exit status 1, the error being the one of the call that
    failed: the parser's, the one of reading the length of a catalog
    that is [undefined], the store's, or the upload's; a run that
    completes ends with the upload's last line and reports nothing.
    Embedding requests and writes occur in the third part only, which
    is empty unless the parser returned a catalog and [initializeIndex]
    returned: they come after the request for the list of indexes and,
    when the index had to be created, after its creation and the whole
    pause of ten seconds. *)
Theorem setupTuva_provisions_before_use (env : Env) (w : World) :
  snd (setupTuva env w) = Ok tt ∧
  ∃ parsing provisioning uploading report,
    trace (fst (setupTuva env w)) =
      trace w ++ parsing ++ provisioning ++ uploading ++ report ∧
    forallb parser_event parsing = true ∧
    match snd (parseTuvaSchema env w) with
    | Throw e =>
        provisioning = [] ∧ uploading = [] ∧ report = [SetupFailed e; Exit 1]
    | Ok None =>
        provisioning = [] ∧ uploading = [] ∧ report = [SetupFailed TypeError; Exit 1]
    | Ok (Some catalog) =>
        match initializeIndex env (fst (parseTuvaSchema env w)) with
        | (_, Throw e) =>
            provisioning_failed e provisioning ∧ uploading = [] ∧
            report = [SetupFailed e; Exit 1]
        | (w2, Ok index) =>
            provisioned provisioning ∧
            match snd (uploadToPinecone env index catalog w2) with
            | Throw e =>
                forallb batch_event uploading = true ∧
                report = [SetupFailed e; Exit 1]
            | Ok _ =>
                (∃ batches n, uploading = batches ++ [AllUploaded n] ∧
                              forallb batch_event batches = true) ∧
                report = []
            end
        end
    end.
Proof.
  unfold setupTuva, try_catch. rewrite run_bind.
  destruct (parseTuvaSchema_logs env w) as (pe & Hw1 & Hpe).
  destruct (parseTuvaSchema env w) as [w1 [[catalog|]|e]]; simpl in Hw1; subst w1;
    cbn [fst snd].
  - rewrite run_bind, lift_run. cbn [schemas_length default].
    change (Datatypes.id catalog) with catalog. rewrite run_bind.
    assert (Hupload : ∀ w2 provisioning,
              trace w2 = trace w ++ pe ++ provisioning → provisioned provisioning →
              let run := match uploadToPinecone env PINECONE_INDEX_NAME catalog w2 with
                         | (w3, Ok _) => (w3, Ok tt)
                         | (w3, Throw e) => (_ ← emit (SetupFailed e); emit (Exit 1)) w3
                         end in
              snd run = Ok tt ∧
              ∃ uploading report,
                trace (fst run) = trace w ++ pe ++ provisioning ++ uploading ++ report ∧
                match snd (uploadToPinecone env PINECONE_INDEX_NAME catalog w2) with
                | Throw e =>
                    forallb batch_event uploading = true ∧
                    report = [SetupFailed e; Exit 1]
                | Ok _ =>
                    (∃ batches n, uploading = batches ++ [AllUploaded n] ∧
                                  forallb batch_event batches = true) ∧
                    report = []
                end).
    { intros w2 provisioning Hw2 _.
      destruct (uploadToPinecone_events env PINECONE_INDEX_NAME catalog w2)
        as (uploading & Hup & Hkind).
      destruct (uploadToPinecone env PINECONE_INDEX_NAME catalog w2) as [w3 [v|e]];
        simpl in Hup, Hkind |- *.
      - split; [reflexivity|]. exists uploading, [].
        split; [rewrite Hup, Hw2, app_nil_r, <- !app_assoc; reflexivity|].
        split; [exact Hkind | reflexivity].
      - split; [reflexivity|]. exists uploading, [SetupFailed e; Exit 1].
        split; [rewrite Hup, Hw2, <- !app_assoc; reflexivity|].
        split; [exact Hkind | reflexivity]. }
    rewrite initializeIndex_run.
    destruct (listIndexes_fault env) as [e|].
    { split; [reflexivity|].
      exists pe, [ListIndexes; IndexError e], [], [SetupFailed e; Exit 1].
      split; [simpl; rewrite <- !app_assoc; reflexivity|].
      split; [exact Hpe|]. split; [left; reflexivity|]. split; reflexivity. }
    destruct (in_store (after w pe) PINECONE_INDEX_NAME).
    { rewrite run_bind.
      destruct (Hupload (after (after w pe) [ListIndexes]) [ListIndexes])
        as (Hok & uploading & report & Htrace & Hrest);
        [simpl; rewrite <- app_assoc; reflexivity | left; reflexivity |].
      cbv zeta in Hok, Htrace.
      destruct (uploadToPinecone env PINECONE_INDEX_NAME catalog
                  (after (after w pe) [ListIndexes])) as [w3 [v|e]];
        (split; [exact Hok|]);
        exists pe, [ListIndexes], uploading, report;
        (split; [exact Htrace|]); (split; [exact Hpe|]);
        (split; [left; reflexivity | exact Hrest]). }
    destruct (createIndex_fault env) as [e|].
    { split; [reflexivity|].
      exists pe, [ListIndexes; CreateIndex index_options; IndexError e], [],
             [SetupFailed e; Exit 1].
      split; [simpl; rewrite <- !app_assoc; reflexivity|].
      split; [exact Hpe|]. split; [right; reflexivity|]. split; reflexivity. }
    rewrite run_bind.
    match goal with
    | |- context [uploadToPinecone env PINECONE_INDEX_NAME catalog ?w2] =>
        destruct (Hupload w2 [ListIndexes; CreateIndex index_options; Sleep 10000])
          as (Hok & uploading & report & Htrace & Hrest);
          [simpl; rewrite <- app_assoc; reflexivity | right; reflexivity |];
        cbv zeta in Hok, Htrace;
        destruct (uploadToPinecone env PINECONE_INDEX_NAME catalog w2) as [w3 [v|e]]
    end;
      (split; [exact Hok|]);
      exists pe, [ListIndexes; CreateIndex index_options; Sleep 10000], uploading, report;
      (split; [exact Htrace|]); (split; [exact Hpe|]);
      (split; [right; reflexivity | exact Hrest]).
  - rewrite run_bind, lift_run. simpl. split; [reflexivity|].
    exists pe, [], [], [SetupFailed TypeError; Exit 1].
    split; [rewrite <- !app_assoc; reflexivity|].
    split; [exact Hpe|]. repeat split; reflexivity.
  - simpl. split; [reflexivity|].
    exists pe, [], [], [SetupFailed e; Exit 1].
    split; [rewrite <- !app_assoc; reflexivity|].
    split; [exact Hpe|]. repeat split; reflexivity.
Qed.

(** ** findYamlFiles *)

Lemma Dirent_induction (P : Dirent → Prop) :
  (∀ name, P (DFile name)) →
  (∀ name items, Forall P items → P (DDir name items)) →
  (∀ name e, P (DLocked name e)) →
  (∀ name, P (DOther name)) →
  ∀ item, P item.
Proof.
  intros Hfile Hdir Hlocked Hother. fix IH 1. intros [name|name items|name e|name].
  - apply Hfile.
  - apply Hdir. induction items as [|item items IHitems]; constructor.
    + apply IH.
    + exact IHitems.
  - apply Hlocked.
  - apply Hother.
Qed.

Lemma walkItem_dir (currentPath name : string) (items : list Dirent) (files : list string) :
  walkItem currentPath (DDir name items) files =
  if skipped name then Ok files else walkDir (path_join currentPath name) items files.
Proof.
  simpl. destruct (skipped name); [reflexivity|].
  revert files. induction items as [|item items IH]; intros files; [reflexivity|].
  simpl. destruct (walkItem (path_join currentPath name) item files); simpl; auto.
Qed.

Lemma found_nil (dir path : string) : ¬ found dir [] path.
Proof. inversion 1; contradiction. Qed.

Lemma found_cons (dir : string) (item : Dirent) (items : list Dirent) (path : string) :
  found dir (item :: items) path ↔ found dir [item] path ∨ found dir items path.
Proof.
  split.
  - intros H. inversion H as [d its name Hin Hyaml|d its sub name p Hin Hskip Hsub];
      subst; destruct Hin as [->|Hin].
    + left. apply found_here; [left; reflexivity | assumption].
    + right. apply found_here; assumption.
    + left. eapply found_below; [left; reflexivity | eassumption..].
    + right. eapply found_below; eassumption.
  - intros [H|H].
    + inversion H as [d its name Hin Hyaml|d its sub name p Hin Hskip Hsub]; subst;
        (destruct Hin as [->|[]]).
      * apply found_here; [left; reflexivity | assumption].
      * eapply found_below; [left; reflexivity | eassumption..].
    + inversion H as [d its name Hin Hyaml|d its sub name p Hin Hskip Hsub]; subst.
      * apply found_here; [right; assumption | assumption].
      * eapply found_below; [right; eassumption | eassumption..].
Qed.

Lemma walkDir_found_from (dir : string) (items : list Dirent) :
  Forall (fun item => ∀ dir acc files,
            walkItem dir item acc = Ok files →
            ∃ new, files = acc ++ new ∧ ∀ path, In path new ↔ found dir [item] path)
         items →
  ∀ acc files,
    walkDir dir items acc = Ok files →
    ∃ new, files = acc ++ new ∧ ∀ path, In path new ↔ found dir items path.
Proof.
  induction 1 as [|item items Hitem _ IH]; intros acc files H; simpl in H.
  - injection H as <-. exists []. rewrite app_nil_r. split; [reflexivity|].
    intros path. split; [intros [] | intros Hf; exact (found_nil _ _ Hf)].
  - bind_inv H. destruct (Hitem _ _ _ Ha) as (new1 & -> & Hnew1).
    destruct (IH _ _ H) as (new2 & -> & Hnew2).
    exists (new1 ++ new2). rewrite app_assoc. split; [reflexivity|].
    intros path. rewrite in_app_iff, found_cons, Hnew1, Hnew2. reflexivity.
Qed.

Lemma walkItem_found (item : Dirent) :
  ∀ dir acc files,
    walkItem dir item acc = Ok files →
    ∃ new, files = acc ++ new ∧ ∀ path, In path new ↔ found dir [item] path.
Proof.
  induction item as [name|name items IH|name e|name] using Dirent_induction;
    intros dir acc files H.
  - simpl in H. destruct (is_yaml name) eqn:Hyaml; injection H as <-.
    + exists [path_join dir name]. split; [reflexivity|]. intros path. split.
      * intros [<-|[]]. apply found_here; [left; reflexivity | assumption].
      * inversion 1 as [d its n Hin Hy|d its sub n p Hin]; subst;
          destruct Hin as [Heq|[]]; [|discriminate].
        injection Heq as ->. left. reflexivity.
    + exists []. rewrite app_nil_r. split; [reflexivity|]. intros path. split; [intros []|].
      inversion 1 as [d its n Hin Hy|d its sub n p Hin]; subst;
        destruct Hin as [Heq|[]]; [|discriminate].
      injection Heq as ->. congruence.
  - rewrite walkItem_dir in H. destruct (skipped name) eqn:Hskip.
    + injection H as <-. exists []. rewrite app_nil_r. split; [reflexivity|].
      intros path. split; [intros []|].
      inversion 1 as [d its n Hin Hy|d its sub n p Hin Hs]; subst;
        destruct Hin as [Heq|[]]; [discriminate|].
      injection Heq as -> ->. congruence.
    + destruct (walkDir_found_from _ items IH _ _ H) as (new & -> & Hnew).
      exists new. split; [reflexivity|]. intros path. rewrite Hnew. split.
      * intros Hf. eapply found_below; [left; reflexivity | eassumption..].
      * inversion 1 as [d its n Hin Hy|d its sub n p Hin Hs Hsub]; subst;
          destruct Hin as [Heq|[]]; [discriminate|].
        injection Heq as -> ->. exact Hsub.
  - simpl in H. destruct (skipped name); [|discriminate]. injection H as <-.
    exists []. rewrite app_nil_r. split; [reflexivity|]. intros path. split; [intros []|].
    inversion 1 as [d its n Hin Hy|d its sub n p Hin Hs]; subst;
      destruct Hin as [Heq|[]]; discriminate.
  - simpl in H. injection H as <-.
    exists []. rewrite app_nil_r. split; [reflexivity|]. intros path. split; [intros []|].
    inversion 1 as [d its n Hin Hy|d its sub n p Hin Hs]; subst;
      destruct Hin as [Heq|[]]; discriminate.
Qed.

(** X15.  What [findYamlFiles] returns for a listed directory are
    exactly the files named [*.yml] or [*.yaml] that can be reached from
    it without entering a directory whose name starts with a dot or is
    [node_modules]: nothing else, and none of them left out.  What is
    neither a plain file nor a directory is never returned. *)
Theorem findYamlFiles_finds_the_yaml_files (dir : string) (items : list Dirent)
    (files : list string) :
  findYamlFiles dir (Listed items) = Ok files →
  ∀ path, In path files ↔ found dir items path.
Proof.
  simpl. intros H.
  destruct (walkDir_found_from dir items) with (acc := @nil string) (files := files)
    as (new & -> & Hnew); [|exact H|exact Hnew].
  apply Forall_forall. intros item _. apply walkItem_found.
Qed.

Lemma findYamlFiles_finds_the_yaml_files_witness :
  findYamlFiles "models" (Listed sample_tree) =
    Ok ["models/core.yml"; "models/claims/medical.yaml"] ∧
  ∀ path, In path ["models/core.yml"; "models/claims/medical.yaml"] ↔
          found "models" sample_tree path.
Proof.
  split; [reflexivity|].
  apply (findYamlFiles_finds_the_yaml_files "models" sample_tree). reflexivity.
Defined.

Lemma walkItem_total (item : Dirent) :
  ∀ dir acc, (∃ files, walkItem dir item acc = Ok files) ↔ listable item = true.
Proof.
  induction item as [name|name items IH|name e|name] using Dirent_induction;
    intros dir acc.
  - simpl. destruct (is_yaml name); split; eauto.
  - rewrite walkItem_dir. simpl. destruct (skipped name); simpl; [split; eauto|].
    generalize (path_join dir name). intros sub. revert acc.
    induction IH as [|item items Hitem _ IHitems]; intros acc; simpl; [split; eauto|].
    rewrite andb_true_iff, <- (Hitem sub acc). split.
    + intros [files H]. bind_inv H. split; [eauto|]. apply (IHitems a). eauto.
    + intros [[files' ->] Hrest]. rewrite bind_Ok. apply IHitems, Hrest.
  - simpl. destruct (skipped name); split; eauto; try discriminate.
    intros [files H]. discriminate.
  - simpl. split; eauto.
Qed.

(** X16.  [findYamlFiles] gives an empty list for a directory that does
    not exist, and raises for one that cannot be listed.  For a listed
    one it raises exactly when the walk enters a directory that cannot be
    listed; such a directory below a skipped one does no harm. *)
Theorem findYamlFiles_outcomes (dir : string) (items : list Dirent) (e : error) :
  findYamlFiles dir Missing = Ok [] ∧
  findYamlFiles dir (Unlistable e) = Throw e ∧
  ((∃ files, findYamlFiles dir (Listed items) = Ok files) ↔
   forallb listable items = true).
Proof.
  split; [reflexivity|]. split; [reflexivity|]. simpl. generalize (@nil string).
  induction items as [|item items IH]; intros acc; simpl; [split; eauto|].
  rewrite andb_true_iff, <- (walkItem_total item dir acc). split.
  - intros [files H]. bind_inv H. split; [eauto|]. apply (IH a). eauto.
  - intros [[files' ->] Hrest]. rewrite bind_Ok. apply IH, Hrest.
Qed.

(** ** From a document to the text that is embedded *)

Lemma createSchemaText_typed (t : TypedTable) (full : value) :
  createSchemaText (schema_of t full) = Ok (schema_text_spec t).
Proof.
  unfold createSchemaText, schema_of, schema_text_spec. simpl.
  rewrite column_lines_typed, bind_Ok.
  destruct t as [n [[|a d]|] cols]; reflexivity.
Qed.

Lemma bare_columns (names : list string) :
  rmap shapeB_column (map VStr names) =
  Ok (map column_of (map (fun n => mkTypedColumn n "TEXT" (Some "")) names)).
Proof.
  induction names as [|n names IH]; [reflexivity|].
  cbn [rmap map]. rewrite shapeB_column_string, bind_Ok, IH. reflexivity.
Qed.

Lemma bare_table_parsed (key : string) (names : list string) :
  parse_document (bare_table_doc key names) =
  Ok [schema_of (mkTypedTable key (Some "")
                   (map (fun n => mkTypedColumn n "TEXT" (Some "")) names))
        VUndefined].
Proof.
  unfold parse_document, bare_table_doc.
  cbn [truthy typeof_object andb get lookup_field object_keys map fst].
  rewrite bind_Ok.
  assert (Hversion : strict_eq_2
            (if String.eqb key "version"
             then VObj [("columns", VArr (map VStr names))] else VUndefined) = false)
    by (destruct (String.eqb key "version"); reflexivity).
  rewrite Hversion. cbn [shapeB_keys]. unfold shapeB_entry.
  cbn [get lookup_field]. rewrite String.eqb_refl, bind_Ok.
  cbn [typeof_object get lookup_field String.eqb Ascii.eqb Bool.eqb truthy].
  rewrite !bind_Ok. cbn [js_or truthy]. rewrite !bind_Ok.
  cbn [array_map]. rewrite bare_columns, !bind_Ok. reflexivity.
Qed.

(** X17.  A table of a keyed map that is given by bare column names
    goes from the document to the text that is embedded like this: one
    record, named by the key, whose text is the key, an empty description
    line, the [Columns:] line, and one line [  - name (TEXT): No
    description] per column name, in order. *)
Theorem bare_table_text (key : string) (names : list string) :
  ∃ table,
    parse_document (bare_table_doc key names) = Ok [table] ∧
    table_name table = VStr key ∧
    createSchemaText table =
      Ok (key +:+ nl +:+ nl +:+ "Columns:" +:+ nl +:+
          join nl (map (fun n => "  - " +:+ n +:+ " (TEXT): No description") names)).
Proof.
  eexists. split; [apply bare_table_parsed|]. split; [reflexivity|].
  rewrite createSchemaText_typed. unfold schema_text_spec. simpl.
  rewrite map_map. reflexivity.
Qed.

(** ** uploadToPinecone: the requests of a batch *)

Lemma requested_events (env : Env) (batch : list TableSchema) (texts : list string) :
  rmap createSchemaText batch = Ok texts →
  requested (flat_map (vector_events env) batch) = texts.
Proof.
  revert texts. induction batch as [|schema batch IH]; simpl; intros texts H.
  - injection H as <-. reflexivity.
  - bind_inv H. bind_inv H. injection H as <-.
    rewrite requested_app, (IH _ Ha0). unfold vector_events. rewrite Ha.
    destruct (embedding_outcome env a); reflexivity.
Qed.

Lemma first_batch_events (env : Env) (index : string) (schemas : list TableSchema)
    (w : World) :
  0 < length schemas →
  ∃ rest, trace (fst (upload_loop env index schemas 0 0 w)) =
          trace w ++ flat_map (vector_events env) (take batchSize schemas) ++ rest.
Proof.
  intros Hpos. rewrite upload_loop_step.
  destruct (decide (0 < length schemas)) as [_|Hno]; [|lia].
  pose proof (upload_batch_run env index schemas 0 0 w) as Hbatch.
  cbv zeta in Hbatch. rewrite Hbatch. clear Hbatch. rewrite drop_0.
  set (quiet := flat_map (vector_events env) (take batchSize schemas)).
  destruct (all_settled _) as [vectors|e].
  2: { exists []. rewrite app_nil_r. reflexivity. }
  destruct (upsert_fault env vectors) as [e|].
  { exists [Upsert index vectors]. simpl. rewrite <- app_assoc. reflexivity. }
  match goal with
  | |- context [upload_loop env index schemas ?i ?u ?wB] =>
      destruct (upload_loop_writes env index schemas (length schemas) i u wB)
        as (new & Htrace & _); [lia|];
      assert (HwB : ∃ logged, trace wB = trace w ++ quiet ++ logged)
  end.
  { destruct (decide (0 + batchSize < length schemas)); eexists;
      [rewrite sleep_trace|]; unfold after; simpl; rewrite <- ?app_assoc; reflexivity. }
  destruct HwB as (logged & HwB).
  exists (logged ++ new). rewrite Htrace, HwB, <- !app_assoc. reflexivity.
Qed.

(** X18.  The requests of a batch are sent together: whatever the
    embedding service answers, and even when the run then fails, every
    table of the first batch whose text can be built has had its text
    sent to the service, in catalog order. *)
Theorem first_batch_is_requested_whole (env : Env) (index : string)
    (schemas : list TableSchema) (w : World) (texts : list string) :
  rmap createSchemaText (take batchSize schemas) = Ok texts →
  ∃ new more,
    trace (fst (uploadToPinecone env index schemas w)) = trace w ++ new ∧
    requested new = texts ++ more.
Proof.
  intros Htexts.
  assert (Hrun : ∃ tail,
            trace (fst (uploadToPinecone env index schemas w)) =
            trace (fst (upload_loop env index schemas 0 0 w)) ++ tail).
  { unfold uploadToPinecone. rewrite run_bind.
    destruct (upload_loop env index schemas 0 0 w) as [w1 [total|e]].
    - rewrite run_bind, emit_run. exists [AllUploaded total]. reflexivity.
    - exists []. simpl. rewrite app_nil_r. reflexivity. }
  destruct Hrun as (tail & Hrun).
  destruct schemas as [|schema schemas].
  - injection Htexts as <-. rewrite upload_loop_step in Hrun. simpl in Hrun.
    exists tail, (requested tail). split; [exact Hrun | reflexivity].
  - destruct (first_batch_events env index (schema :: schemas) w) as (rest & Hfirst);
      [simpl; lia|].
    exists (flat_map (vector_events env) (take batchSize (schema :: schemas))
              ++ rest ++ tail), (requested (rest ++ tail)).
    split.
    + rewrite Hrun, Hfirst, <- !app_assoc. reflexivity.
    + rewrite requested_app, (requested_events env _ _ Htexts). reflexivity.
Qed.

Lemma first_batch_is_requested_whole_witness :
  (∃ e, snd (uploadToPinecone env_fails_on_2 PINECONE_INDEX_NAME (sample_catalog 5) world0)
        = Throw e) ∧
  ∃ texts new more,
    rmap createSchemaText (take batchSize (sample_catalog 5)) = Ok texts ∧
    length texts = 5 ∧
    trace (fst (uploadToPinecone env_fails_on_2 PINECONE_INDEX_NAME (sample_catalog 5) world0))
      = trace world0 ++ new ∧
    requested new = texts ++ more.
Proof.
  split; [eexists; vm_compute; reflexivity|].
  edestruct (first_batch_is_requested_whole env_fails_on_2 PINECONE_INDEX_NAME
               (sample_catalog 5) world0) as (new & more & Htrace & Hreq).
  { vm_compute. reflexivity. }
  eexists _, new, more. split; [vm_compute; reflexivity|].
  split; [reflexivity|]. split; [exact Htrace | exact Hreq].
Defined.
